(** * exphttp: windowed rate counters and moving averages

    A shallow embedding of [ratecounter.go] and [moving_average.go] of
    package [exphttp], with the properties of the ring-rotation engine
    stated over it.

    Conventions.
    - [int64] and [int] values are integers of [Z]; every arithmetic
      operation of the source is followed by its two's-complement
      wrap-around ([Int64.wrap]).  [int] is taken to be 64 bits wide.
    - A slice [[]int64] is a [list Z]; an index expression outside the
      slice panics, which is the [Panic] outcome of [result].
    - A pointer receiver that is mutated becomes explicit state passing:
      a method returns the new value of its receiver.
    - The goroutine started by a constructor is returned next to the
      instance as an optional [Rotation] descriptor; one iteration of its
      [for range t.C] loop is the function [rotate]. *)

From Stdlib Require Import ZArith Lia String Ascii.
From stdpp Require Import base tactics option list numbers relations gmap.
From stdpp Require strings.

Local Open Scope Z_scope.

(** ** Machine integers *)

Module Int64.

Definition min_int : Z := - 2 ^ 63.
Definition max_int : Z := 2 ^ 63 - 1.

Definition in_range (z : Z) : Prop := min_int ≤ z ≤ max_int.

(** Two's-complement reduction of a mathematical integer to [int64]. *)
Definition wrap (z : Z) : Z := (z + 2 ^ 63) mod 2 ^ 64 - 2 ^ 63.

Definition add (x y : Z) : Z := wrap (x + y).
Definition sub (x y : Z) : Z := wrap (x - y).

End Int64.

(** ** Run-time panics *)

Inductive panic : Type :=
  | IndexOutOfRange
  | IntegerDivideByZero
  | NonPositiveTickerInterval.

Inductive result (A : Type) : Type :=
  | Ok (a : A)
  | Panic (p : panic).

Arguments Ok {A} a.
Arguments Panic {A} p.

#[global] Instance result_ret : MRet result := λ A a, Ok a.
#[global] Instance result_bind : MBind result := λ A B f m,
  match m with
  | Ok a => f a
  | Panic p => Panic p
  end.

(** Go's [x / y] and [x % y] on signed integers: truncated toward zero, a
    run-time panic when [y] is zero, and wrap-around for the one overflowing
    quotient [min_int / -1]. *)
Definition int_quo (x y : Z) : result Z :=
  if decide (y = 0) then Panic IntegerDivideByZero else Ok (Int64.wrap (x ÷ y)).

Definition int_rem (x y : Z) : result Z :=
  if decide (y = 0) then Panic IntegerDivideByZero else Ok (Z.rem x y).

(** ** Slices of [int64] and the [sync/atomic] operations on their cells *)

(** [s[i]], also the bounds check of taking the address [&s[i]]. *)
Definition slice_get (s : list Z) (i : Z) : result Z :=
  if decide (0 ≤ i) then
    match s !! Z.to_nat i with
    | Some v => Ok v
    | None => Panic IndexOutOfRange
    end
  else Panic IndexOutOfRange.

Module atomic.

(** [atomic.LoadInt64(&s[i])] *)
Definition LoadInt64 (s : list Z) (i : Z) : result Z := slice_get s i.

(** [atomic.AddInt64(&s[i], delta)] : the new value and the updated slice. *)
Definition AddInt64 (s : list Z) (i : Z) (delta : Z) : result (Z * list Z) :=
  old ← slice_get s i;
  let new := Int64.add old delta in
  Ok (new, <[Z.to_nat i := new]> s).

(** [atomic.SwapInt64(&s[i], new)] : the old value and the updated slice. *)
Definition SwapInt64 (s : list Z) (i : Z) (new : Z) : result (Z * list Z) :=
  old ← slice_get s i;
  Ok (old, <[Z.to_nat i := new]> s).

End atomic.

(** ** [strconv] *)

Module strconv.

Local Open Scope string_scope.

(** The character of a decimal digit [0 ≤ d < 10]. *)
Definition digit_char (d : Z) : ascii := ascii_of_nat (48 + Z.to_nat d).

(** The loop of [formatBits] at base 10: digits are produced from the
    least significant one and written in front of what is already there.
    An unsigned 64-bit value has at most 20 digits. *)
Fixpoint formatBits (fuel : nat) (u : Z) (acc : string) : string :=
  match fuel with
  | O => acc
  | S fuel' =>
      if decide (u < 10)%Z then String (digit_char u) acc
      else formatBits fuel' (u ÷ 10) (String (digit_char (Z.rem u 10)) acc)
  end.

(** [strconv.FormatInt(i, 10)] *)
Definition FormatInt (i : Z) : string :=
  if decide (i < 0)%Z then String "-" (formatBits 20 (- i) "")
  else formatBits 20 i "".

Definition digit_val (c : ascii) : option Z :=
  let n := Z.of_nat (nat_of_ascii c) in
  if decide (48 ≤ n ≤ 57)%Z then Some (n - 48)%Z else None.

Fixpoint parse_digits (s : string) (acc : Z) : option Z :=
  match s with
  | "" => Some acc
  | String c s' =>
      match digit_val c with
      | Some d => parse_digits s' (10 * acc + d)%Z
      | None => None
      end
  end.

Definition parse_unsigned (s : string) : option Z :=
  match s with
  | "" => None
  | _ => parse_digits s 0%Z
  end.

(** [strconv.ParseInt(s, 10, 64)] : an optional sign, then at least one
    decimal digit; a syntax or a range error is [None]. *)
Definition ParseInt (s : string) : option Z :=
  match s with
  | String "-" s' =>
      match parse_unsigned s' with
      | Some n => if decide (n ≤ 2 ^ 63)%Z then Some (- n)%Z else None
      | None => None
      end
  | String "+" s' =>
      match parse_unsigned s' with
      | Some n => if decide (n ≤ Int64.max_int)%Z then Some n else None
      | None => None
      end
  | _ =>
      match parse_unsigned s with
      | Some n => if decide (n ≤ Int64.max_int)%Z then Some n else None
      | None => None
      end
  end.

Definition is_digit (c : ascii) : bool :=
  bool_decide (48 ≤ nat_of_ascii c ≤ 57)%nat.

Fixpoint all_digits (s : string) : bool :=
  match s with
  | "" => true
  | String c s' => is_digit c && all_digits s'
  end.

(** A natural number in base 10: one digit, or several of which the first
    is not [0]. *)
Definition canonical_unsigned (s : string) : bool :=
  match s with
  | "" => false
  | String c "" => is_digit c
  | String c s' => is_digit c && negb (Ascii.eqb c "0") && all_digits s'
  end.

(** A canonical base-10 integer: a canonical natural number, or [-]
    followed by a canonical natural number other than [0]. *)
Definition canonical_decimal (s : string) : bool :=
  match s with
  | String "-" s' => canonical_unsigned s' && negb (String.eqb s' "0")
  | _ => canonical_unsigned s
  end.

End strconv.

(** [handlerfunc.go]: the default number of buckets of a window. *)
Definition DefaultGranularity : Z := 32.

(** ** The rotation goroutine and the ticker that drives it *)

(** What the goroutine of a windowed instance has captured: [gran], and the
    period [interval / time.Duration(gran)] of the ticker it creates.
    Durations are nanoseconds. *)
Record Rotation : Type := mkRotation {
  rot_gran : Z;
  rot_period : Z
}.

(** [n] iterations of a loop body that may panic. *)
Fixpoint iterate {A} (body : A → result A) (n : nat) (a : A) : result A :=
  match n with
  | O => Ok a
  | S n' => a' ← body a; iterate body n' a'
  end.

Section Ticker.

Context {T : Type}.

(** The loop body of the goroutine, for the granularity it captured. *)
Variable rotate : Z → T → result T.

(** An instance together with its goroutine (if it has one) and the time
    elapsed since the ticker last fired. *)
Record Live : Type := mkLive {
  inst : T;
  task : option Rotation;
  since_tick : Z
}.

Definition start (c : T * option Rotation) : Live :=
  {| inst := c.1; task := c.2; since_tick := 0 |}.

(** Letting [d] nanoseconds pass with no other activity.  An instance with
    no goroutine is left alone.  [time.NewTicker] panics on a period that
    is not positive; otherwise the ticker fires once per period and each
    firing runs the loop body once. *)
Definition elapse (d : Z) (s : Live) : result Live :=
  match task s with
  | None => Ok s
  | Some t =>
      if decide (rot_period t ≤ 0) then Panic NonPositiveTickerInterval
      else
        let total := since_tick s + d in
        r ← iterate (rotate (rot_gran t)) (Z.to_nat (total / rot_period t)) (inst s);
        Ok {| inst := r; task := task s; since_tick := total mod rot_period t |}
  end.

End Ticker.

Arguments Live T : clear implicits.

(** ** [ratecounter.go] *)

Module RateCounter.

Record t : Type := mk {
  others : Z;
  bins : list Z;
  index : Z
}.

Definition NewRateCounterWithGranularity (interval gran : Z)
  : t * option Rotation :=
  if decide (interval ≤ 0 ∨ gran ≤ 1) then
    ({| others := 0; bins := [0]; index := 0 |}, None)
  else
    ({| others := 0; bins := replicate (Z.to_nat gran) 0; index := 0 |},
     Some {| rot_gran := gran; rot_period := interval ÷ gran |}).

Definition NewCounter : t * option Rotation :=
  NewRateCounterWithGranularity 0 1.

Definition NewRateCounter (interval : Z) : t * option Rotation :=
  NewRateCounterWithGranularity interval DefaultGranularity.

(** One iteration of the goroutine's loop:
<<
    i = r.index
    r.index = (r.index + 1) % gran
    r.others += r.bins[i] - atomic.SwapInt64(&r.bins[r.index], 0)
>>
    The language leaves open whether the operand [r.bins[i]] is read
    before or after the call; the compiler evaluates the call first, and
    so does this definition.  The other order is [tick_spec] below. *)
Definition rotate (gran : Z) (r : t) : result t :=
  let i := index r in
  idx ← int_rem (Int64.add (index r) 1) gran;
  '(old, bins') ← atomic.SwapInt64 (bins r) idx 0;
  b ← slice_get bins' i;
  Ok {| others := Int64.add (others r) (Int64.sub b old);
        bins := bins';
        index := idx |}.

Definition Add (r : t) (val : Z) : result t :=
  '(_, bins') ← atomic.AddInt64 (bins r) (index r) val;
  Ok {| others := others r; bins := bins'; index := index r |}.

Definition Rate (r : t) : result Z :=
  v ← atomic.LoadInt64 (bins r) (index r);
  Ok (Int64.add (others r) v).

Definition String (r : t) : result string :=
  v ← Rate r;
  Ok (strconv.FormatInt v).

End RateCounter.

(** ** [moving_average.go] *)

Module MovingAverage.

Record t : Type := mk {
  otherSums : Z;
  otherCounts : Z;
  sums : list Z;
  counts : list Z;
  index : Z
}.

Definition NewMovingAverageWithGranularity (interval gran : Z)
  : t * option Rotation :=
  if decide (interval ≤ 0 ∨ gran ≤ 1) then
    ({| otherSums := 0; otherCounts := 0;
        sums := [0]; counts := [0]; index := 0 |}, None)
  else
    ({| otherSums := 0; otherCounts := 0;
        sums := replicate (Z.to_nat gran) 0;
        counts := replicate (Z.to_nat gran) 0;
        index := 0 |},
     Some {| rot_gran := gran; rot_period := interval ÷ gran |}).

Definition NewAverage : t * option Rotation :=
  NewMovingAverageWithGranularity 0 1.

Definition NewMovingAverage (interval : Z) : t * option Rotation :=
  NewMovingAverageWithGranularity interval DefaultGranularity.

(** One iteration of the goroutine's loop:
<<
    i = r.index
    r.index = (r.index + 1) % gran
    s := atomic.SwapInt64(&r.sums[r.index], 0)
    n := atomic.SwapInt64(&r.counts[r.index], 0)
    r.otherSums += r.sums[i] - s
    r.otherCounts += r.counts[i] - n
>> *)
Definition rotate (gran : Z) (r : t) : result t :=
  let i := index r in
  idx ← int_rem (Int64.add (index r) 1) gran;
  '(s, sums') ← atomic.SwapInt64 (sums r) idx 0;
  '(n, counts') ← atomic.SwapInt64 (counts r) idx 0;
  bs ← slice_get sums' i;
  let otherSums' := Int64.add (otherSums r) (Int64.sub bs s) in
  bn ← slice_get counts' i;
  let otherCounts' := Int64.add (otherCounts r) (Int64.sub bn n) in
  Ok {| otherSums := otherSums'; otherCounts := otherCounts';
        sums := sums'; counts := counts'; index := idx |}.

Definition Add (r : t) (val : Z) : result t :=
  '(_, sums') ← atomic.AddInt64 (sums r) (index r) val;
  '(_, counts') ← atomic.AddInt64 (counts r) (index r) 1;
  Ok {| otherSums := otherSums r; otherCounts := otherCounts r;
        sums := sums'; counts := counts'; index := index r |}.

(** The aggregate that [Average] reads before it divides: the active
    bucket's sum and count, each plus its carried-over part. *)
Definition aggregate (r : t) : result (Z * Z) :=
  s ← atomic.LoadInt64 (sums r) (index r);
  n ← atomic.LoadInt64 (counts r) (index r);
  let s := Int64.add s (otherSums r) in
  let n := Int64.add n (otherCounts r) in
  Ok (s, n).

Definition Average (r : t) : result Z :=
  '(s, n) ← aggregate r;
  if decide (n = 0) then Ok 0 else int_quo s n.

Definition String (r : t) : result string :=
  v ← Average r;
  Ok (strconv.FormatInt v).

End MovingAverage.

(** ** Sequential runs: calls of [Add] interleaved with rotation steps *)

Inductive event : Type :=
  | EvAdd (val : Z)
  | EvTick.

Section Runs.

Context {T : Type}.
Variable add : T → Z → result T.
Variable rotate : Z → T → result T.

(** [EvTick] is one rotation step, an iteration of the loop of the
    goroutine; when the ticker fires is the business of [elapse].  Where no
    goroutine was started there is no ticker, and nothing runs. *)
Definition exec (task : option Rotation) (r : T) (e : event) : result T :=
  match e with
  | EvAdd v => add r v
  | EvTick =>
      match task with
      | Some t => rotate (rot_gran t) r
      | None => Ok r
      end
  end.

Fixpoint run (task : option Rotation) (r : T) (tr : list event) : result T :=
  match tr with
  | [] => Ok r
  | e :: tr' => r' ← exec task r e; run task r' tr'
  end.

End Runs.

Definition sumZ (l : list Z) : Z := foldr Z.add 0 l.

(** The number of rotation ticks in a trace. *)
Fixpoint ticks (tr : list event) : nat :=
  match tr with
  | [] => O
  | EvAdd _ :: tr' => ticks tr'
  | EvTick :: tr' => S (ticks tr')
  end.

(** The values added during the most recent [g] bucket periods of a
    trace given in chronological order: those that fewer than [g] ticks
    follow. *)
Fixpoint recent (g : nat) (tr : list event) : list Z :=
  match tr with
  | [] => []
  | EvAdd v :: tr' =>
      if decide (ticks tr' < g)%nat then v :: recent g tr' else recent g tr'
  | EvTick :: tr' => recent g tr'
  end.

(** All the values added along a trace. *)
Fixpoint added (tr : list event) : list Z :=
  match tr with
  | [] => []
  | EvAdd v :: tr' => v :: added tr'
  | EvTick :: tr' => added tr'
  end.

(** ** Concurrent producers *)

(** A goroutine that calls [r.Add(v)] for each [v] of [todo] in turn.  A call
    [atomic.AddInt64(&r.bins[r.index], val)] is two steps, between which
    other goroutines may run: the operand [&r.bins[r.index]] is evaluated (a
    plain read of [r.index] and a bounds check), then the addition is done
    atomically on that cell. *)
Record producer : Type := mkProducer {
  todo : list Z;
  cell : option Z
}.

Definition finished (p : producer) : Prop := todo p = [].

Definition producer_step (r : RateCounter.t) (p : producer)
  : result (RateCounter.t * producer) :=
  match todo p, cell p with
  | [], _ => Ok (r, p)
  | _ :: _, None =>
      _ ← slice_get (RateCounter.bins r) (RateCounter.index r);
      Ok (r, {| todo := todo p; cell := Some (RateCounter.index r) |})
  | v :: rest, Some i =>
      '(_, bins') ← atomic.AddInt64 (RateCounter.bins r) i v;
      Ok ({| RateCounter.others := RateCounter.others r;
             RateCounter.bins := bins';
             RateCounter.index := RateCounter.index r |},
          {| todo := rest; cell := None |})
  end.

(** One step of the program: the scheduler picks any producer that has not
    finished, and that producer takes its next step.  The operations of
    [sync/atomic] are sequentially consistent, so an execution of the
    program is an interleaving of such steps.  [None] is the state of a
    program brought down by a panic. *)
Definition pool : Type := RateCounter.t * list producer.

Inductive sched_step : option pool → option pool → Prop :=
  | sched_ok r ps k p r' p' :
      ps !! k = Some p →
      ¬ finished p →
      producer_step r p = Ok (r', p') →
      sched_step (Some (r, ps)) (Some (r', <[k := p']> ps))
  | sched_panic r ps k p e :
      ps !! k = Some p →
      ¬ finished p →
      producer_step r p = Panic e →
      sched_step (Some (r, ps)) None.

Definition all_finished (s : option pool) : Prop :=
  ∃ r ps, s = Some (r, ps) ∧ Forall finished ps.

(** [n] producers, each of which calls [Add(v)] [m] times. *)
Definition producers (n m : nat) (v : Z) : list producer :=
  replicate n {| todo := replicate m v; cell := None |}.

(** ** The poller: garbage-collection pauses in [MemStats]

    [runtime.MemStats] has [NumGC uint32] and [PauseNs [256]uint64]. *)

Module Uint64.

Definition max_uint : Z := 2 ^ 64 - 1.

Definition in_range (z : Z) : Prop := 0 ≤ z ≤ max_uint.

Definition wrap (z : Z) : Z := z mod 2 ^ 64.

Definition add (x y : Z) : Z := wrap (x + y).

(** [x / y] on unsigned integers. *)
Definition quo (x y : Z) : result Z :=
  if decide (y = 0) then Panic IntegerDivideByZero else Ok (x / y).

End Uint64.

(** The loop of [MemStats]:
<<
    for i := uint64(0); i < n; i++ {
        avg += r.PauseNs[i] / n
        if r.PauseNs[i] > max {
            max = r.PauseNs[i]
        }
    }
>>
    The fuel bounds the number of iterations; the loop is left through its
    condition. *)
Fixpoint gc_pause_loop (fuel : nat) (PauseNs : list Z) (n i avg max : Z)
  : result (Z * Z) :=
  match fuel with
  | O => Ok (avg, max)
  | S fuel' =>
      if decide (i < n) then
        p ← slice_get PauseNs i;
        q ← Uint64.quo p n;
        let avg := Uint64.add avg q in
        p' ← slice_get PauseNs i;
        let max := if decide (p' > max) then p' else max in
        gc_pause_loop fuel' PauseNs n (Uint64.add i 1) avg max
      else Ok (avg, max)
  end.

(** What [MemStats] records as [gc.avg_pause_ns] and [gc.max_pause_ns]:
<<
    n := uint64(r.NumGC)
    if n > 256 {
        n = 256
    }
    var avg, max uint64
>>
    and then the loop, which runs at most 256 times. *)
Definition gc_pause_stats (NumGC : Z) (PauseNs : list Z) : result (Z * Z) :=
  let n := NumGC in
  let n := if decide (n > 256) then 256 else n in
  gc_pause_loop 257 PauseNs n 0 0 0.

(** ** [expvar]: maps of published variables

    A variable of an [expvar.Map] is an [expvar.Int] or, here, one of the
    rate counters of the owner of the map; the counter is shared with the
    owner, who keeps it, so the map holds a reference [K] to it. *)

Inductive Var (K : Type) : Type :=
  | VarInt (v : Z)
  | VarCounter (k : K).

Arguments VarInt {K} v.
Arguments VarCounter {K} k.

(** [Add] of [expvar.Map]: a key that is absent is first given a new [Int];
    a variable that is not an [Int] is left alone. *)
Definition Map_Add {K} (m : gmap string (Var K)) (key : string) (delta : Z)
  : gmap string (Var K) :=
  match m !! key with
  | None => <[key := VarInt (Int64.add 0 delta)]> m
  | Some (VarInt v) => <[key := VarInt (Int64.add v delta)]> m
  | Some (VarCounter _) => m
  end.


(** [time.Minute], in nanoseconds. *)
Definition Minute : Z := 60000000000.

(** ** [handlerfunc.go] *)

(** [MakeExpHandlerFunc]: the wrapped handler is given the writer
    [&getStatusCode{w, 500}].  Of what a handler does, the calls of
    [WriteHeader] matter here: each stores its code and is passed on to [w].
    The result is the code stored last, and the codes [w] has received. *)
Record getStatusCode : Type := mkGetStatusCode {
  ResponseWriter : list Z;
  code : Z
}.

Definition WriteHeader (w : getStatusCode) (c : Z) : getStatusCode :=
  {| ResponseWriter := ResponseWriter w ++ [c]; code := c |}.

Definition MakeExpHandlerFunc (h : list Z) (w : list Z) : Z * list Z :=
  let w2 := {| ResponseWriter := w; code := 500 |} in
  let w2 := foldl WriteHeader w2 h in
  (code w2, ResponseWriter w2).

(** Where an [ExpHandler] keeps a rate counter. *)
Inductive counter_ref : Type :=
  | ReqCounter (i : nat)
  | RespCounter (i : nat).

(** How the tracked [HandlerFunc] ends on a request. *)
Inductive outcome : Type :=
  | Returned (code : Z)
  | Panicked.

Module ExpHandler.

(** [Durations] is the map listed in the order in which [range] visits
    it.  The [HandlerFunc] is not a field here: how it ends on a request
    is an input of [ServeHTTP]. *)
Record t : Type := mk {
  Name : string;
  Stats : gmap string (Var counter_ref);
  Durations : list (string * Z);
  didInit : bool;
  reqCounters : list (Live RateCounter.t);
  respCounters : list (Live RateCounter.t)
}.











End ExpHandler.

(** The variables published under a name of their own, and the map
    [expHandlers], which is published as ["exphttp"]. *)
Record Registry : Type := mkRegistry {
  published : gset string;
  expHandlers : gmap string (Var Empty_set)
}.

(** When the package has been initialised: [expvar] has published
    ["cmdline"] and ["memstats"], and this package ["exphttp"]. *)
Definition initial_registry : Registry :=
  {| published := {["cmdline"%string; "memstats"%string; "exphttp"%string]};
     expHandlers := ∅ |}.

(** [NewExpHandler].  [expvar.NewMap] publishes the name, and panics on a
    name that is published already; [None] is that panic. *)
Definition NewExpHandler (g : Registry) (name : string)
  : option (ExpHandler.t * Registry) :=
  if decide (name ∈ published g) then None
  else
    Some ({| ExpHandler.Name := name;
             ExpHandler.Stats := ∅;
             ExpHandler.Durations := [("min"%string, Minute)];
             ExpHandler.didInit := false;
             ExpHandler.reqCounters := [];
             ExpHandler.respCounters := [] |},
          {| published := {[name]} ∪ published g;
             expHandlers := Map_Add (expHandlers g) name 1 |}).



(** What an [Int] that is added to once per request of [reqs] satisfying
    [P] holds: nothing while no such request was served, then the [int64]
    sum of the amounts [f]. *)
Definition tally (P : outcome * Z → bool) (f : outcome * Z → Z)
    (reqs : list (outcome * Z)) : option Z :=
  match filter (λ r, P r = true) reqs with
  | [] => None
  | rs => Some (Int64.wrap (sumZ (f <$> rs)))
  end.






(** Handlers created one after the other, for the names given. *)
Fixpoint new_handlers (g : Registry) (names : list string)
  : option (list ExpHandler.t * Registry) :=
  match names with
  | [] => Some ([], g)
  | name :: names' =>
      match NewExpHandler g name with
      | None => None
      | Some (e, g') =>
          match new_handlers g' names' with
          | None => None
          | Some (es, g'') => Some (e :: es, g'')
          end
      end
  end.

(** The handlers registered in [expHandlers] are published, and each is
    registered with the value [1]. *)
Definition registry_ok (g : Registry) : Prop :=
  ∀ k v, expHandlers g !! k = Some v → k ∈ published g ∧ v = VarInt 1.

(** ** [rpcserver.go] *)

(** Where the rate counters published in [rpcStats] are kept: in the
    package variables [reqRate] and [respRate], or in [rates] under a
    method. *)
Inductive rpc_ref : Type :=
  | ReqRate
  | RespRate
  | MethodRate (method : string).


Module ExpRPCServer.

(** The package variables [rpcStats], [reqRate], [respRate], and the fields
    of the one server that uses them. *)
Record t : Type := mk {
  rpcStats : gmap string (Var rpc_ref);
  reqRate : Live RateCounter.t;
  respRate : Live RateCounter.t;
  IntervalLabel : string;
  Interval : Z;
  rates : gmap string (Live RateCounter.t);
  startTimes : gmap Z Z
}.








End ExpRPCServer.














(** ** [gobServerCodec]: closing the connection *)

(** Of the codec, the flag [closed] and, for the connection [rwc], how
    many times it was closed. *)
Record gobServerCodec : Type := mkCodec {
  closed : bool;
  rwc_closed : nat
}.

(** [Close]; [err] is what [rwc.Close()] returns if it is called, [None]
    being the nil error. *)
Definition Close (c : gobServerCodec) (err : option string)
  : gobServerCodec * option string :=
  if closed c then (c, None)
  else ({| closed := true; rwc_closed := S (rwc_closed c) |}, err).

(** [Close] called once for each entry of [errs], which is what closing
    the connection would return at that call; the results, in order. *)
Fixpoint closes (c : gobServerCodec) (errs : list (option string))
  : gobServerCodec * list (option string) :=
  match errs with
  | [] => (c, [])
  | err :: errs' =>
      let '(c1, r) := Close c err in
      let '(c2, rs) := closes c1 errs' in
      (c2, r :: rs)
  end.

(** ** The tick procedure as the specification words it

    Four steps: remember the active index as [i]; advance the active index
    to [(activeIndex + 1) mod granularity]; swap the new active bucket's cell
    to zero, which yields its previous value [v]; add to the carry the value
    that [buckets[i]] had before the swap, less [v].  The carry is an
    [int64], as it is in the code. *)

Definition tick_spec (granularity : Z) (r : RateCounter.t)
  : result RateCounter.t :=
  let i := RateCounter.index r in
  let activeIndex := (RateCounter.index r + 1) mod granularity in
  before ← slice_get (RateCounter.bins r) i;
  '(v, buckets) ← atomic.SwapInt64 (RateCounter.bins r) activeIndex 0;
  Ok {| RateCounter.others :=
          Int64.add (RateCounter.others r) (Int64.sub before v);
        RateCounter.bins := buckets;
        RateCounter.index := activeIndex |}.

(** The same procedure over cells that are (sum, count) pairs. *)
Definition tick_spec_avg (granularity : Z) (r : MovingAverage.t)
  : result MovingAverage.t :=
  let i := MovingAverage.index r in
  let activeIndex := (MovingAverage.index r + 1) mod granularity in
  before_sum ← slice_get (MovingAverage.sums r) i;
  before_count ← slice_get (MovingAverage.counts r) i;
  '(vs, sums) ← atomic.SwapInt64 (MovingAverage.sums r) activeIndex 0;
  '(vn, counts) ← atomic.SwapInt64 (MovingAverage.counts r) activeIndex 0;
  Ok {| MovingAverage.otherSums :=
          Int64.add (MovingAverage.otherSums r) (Int64.sub before_sum vs);
        MovingAverage.otherCounts :=
          Int64.add (MovingAverage.otherCounts r) (Int64.sub before_count vn);
        MovingAverage.sums := sums;
        MovingAverage.counts := counts;
        MovingAverage.index := activeIndex |}.

(** ** The ring invariant

    What the cells and the carry of one ring hold after a trace.  [w v] is
    what a call [Add(v)] contributes to the ring: [v] itself for a ring of
    sums, [1] for a ring of counts. *)

(** The total contributed by the calls that exactly [k] ticks follow. *)
Fixpoint aged (w : Z → Z) (k : nat) (tr : list event) : Z :=
  match tr with
  | [] => 0
  | EvAdd v :: tr' =>
      (if decide (ticks tr' = k) then w v else 0) + aged w k tr'
  | EvTick :: tr' => aged w k tr'
  end.

(** [f 0 + ... + f (n - 1)] *)
Fixpoint sum_to (n : nat) (f : nat → Z) : Z :=
  match n with
  | O => 0
  | S n' => sum_to n' f + f n'
  end.

(** How many ticks ago cell [j] was the active one, when cell [i] is. *)
Definition age (g i j : nat) : nat :=
  if decide (j ≤ i)%nat then (i - j)%nat else (i + g - j)%nat.

Definition ring_inv (w : Z → Z) (g : nat) (tr : list event)
  (carry : Z) (cells : list Z) (idx : Z) : Prop :=
  ∃ i : nat,
    idx = Z.of_nat i ∧ (i < g)%nat ∧ length cells = g ∧
    (∀ j, (j < g)%nat →
          cells !! j = Some (Int64.wrap (aged w (age g i j) tr))) ∧
    carry = Int64.wrap (sum_to (g - 1) (λ k, aged w (S k) tr)).

(** The ring of a counter, and the two rings of an average: one of sums and
    one of counts, which share the index. *)
Definition rc_inv (g : nat) (tr : list event) (r : RateCounter.t) : Prop :=
  ring_inv id g tr
    (RateCounter.others r) (RateCounter.bins r) (RateCounter.index r).

Definition ma_inv (g : nat) (tr : list event) (m : MovingAverage.t) : Prop :=
  ring_inv id g tr
    (MovingAverage.otherSums m) (MovingAverage.sums m) (MovingAverage.index m) ∧
  ring_inv (λ _, 1) g tr
    (MovingAverage.otherCounts m) (MovingAverage.counts m)
    (MovingAverage.index m).

(** ** The invariant of a pool of producers

    What the producers have still to add, and a measure of the steps they
    have still to take. *)

Definition pending (ps : list producer) : Z :=
  sumZ ((λ p, sumZ (todo p)) <$> ps).

Definition effort_of (p : producer) : Z :=
  2 * Z.of_nat (length (todo p)) +
  match cell p with Some _ => 0 | None => 1 end.

Definition effort (ps : list producer) : Z := sumZ (effort_of <$> ps).

(** Along an execution that started from the counter [r0]: the index and the
    carry are those of [r0], a producer that has evaluated its operand holds
    the index of [r0], and the active cell together with what is pending
    makes up [total]. *)
Definition pool_inv (r0 : RateCounter.t) (total : Z) (s : option pool)
  : Prop :=
  ∃ r ps v,
    s = Some (r, ps) ∧
    RateCounter.index r = RateCounter.index r0 ∧
    RateCounter.others r = RateCounter.others r0 ∧
    Forall (λ p, cell p = None ∨ cell p = Some (RateCounter.index r0)) ps ∧
    slice_get (RateCounter.bins r) (RateCounter.index r0) = Ok v ∧
    Int64.wrap (v + pending ps) = Int64.wrap total.

(** ** Well-formed counters

    The active index lies inside the ring, and the carry is the [int64] sum
    of the buckets other than the active one. *)

Definition rc_wf (r : RateCounter.t) : Prop :=
  0 ≤ RateCounter.index r < Z.of_nat (length (RateCounter.bins r)).

Definition carry_ok (r : RateCounter.t) : Prop :=
  ∃ v, slice_get (RateCounter.bins r) (RateCounter.index r) = Ok v ∧
       RateCounter.others r = Int64.wrap (sumZ (RateCounter.bins r) - v).

(** * Properties *)

(** ** Arithmetic of [int64] *)

Lemma wrap_spec z : ∃ k, Int64.wrap z = z + 2 ^ 64 * k.
Proof.
  unfold Int64.wrap. exists (- ((z + 2 ^ 63) / 2 ^ 64)).
  pose proof (Z.div_mod (z + 2 ^ 63) (2 ^ 64)). lia.
Qed.

Lemma wrap_shift z k : Int64.wrap (z + 2 ^ 64 * k) = Int64.wrap z.
Proof.
  unfold Int64.wrap. f_equal.
  replace (z + 2 ^ 64 * k + 2 ^ 63) with (z + 2 ^ 63 + k * 2 ^ 64) by ring.
  apply Z.mod_add. lia.
Qed.

Lemma wrap_in_range z : Int64.in_range (Int64.wrap z).
Proof.
  unfold Int64.in_range, Int64.wrap, Int64.min_int, Int64.max_int.
  pose proof (Z.mod_pos_bound (z + 2 ^ 63) (2 ^ 64)). lia.
Qed.

Lemma wrap_id z : Int64.in_range z → Int64.wrap z = z.
Proof.
  unfold Int64.in_range, Int64.wrap, Int64.min_int, Int64.max_int. intros H.
  rewrite Z.mod_small; lia.
Qed.

Lemma wrap_add_l a b : Int64.wrap (Int64.wrap a + b) = Int64.wrap (a + b).
Proof.
  destruct (wrap_spec a) as [k ->].
  replace (a + 2 ^ 64 * k + b) with (a + b + 2 ^ 64 * k) by ring.
  apply wrap_shift.
Qed.

Lemma wrap_add_r a b : Int64.wrap (a + Int64.wrap b) = Int64.wrap (a + b).
Proof. rewrite Z.add_comm, wrap_add_l. f_equal. ring. Qed.

Lemma wrap_sub_l a b : Int64.wrap (Int64.wrap a - b) = Int64.wrap (a - b).
Proof. unfold Z.sub. apply wrap_add_l. Qed.

Lemma wrap_sub_r a b : Int64.wrap (a - Int64.wrap b) = Int64.wrap (a - b).
Proof.
  destruct (wrap_spec b) as [k ->].
  replace (a - (b + 2 ^ 64 * k)) with (a - b + 2 ^ 64 * (- k)) by ring.
  apply wrap_shift.
Qed.

Lemma wrap_wrap a : Int64.wrap (Int64.wrap a) = Int64.wrap a.
Proof. apply wrap_id, wrap_in_range. Qed.

Create Rewrite HintDb int64.
#[local] Hint Rewrite wrap_add_l wrap_add_r wrap_sub_l wrap_sub_r wrap_wrap : int64.

Ltac int64_range :=
  unfold Int64.in_range, Int64.min_int, Int64.max_int in *; lia.

Ltac int64_norm :=
  unfold Int64.add, Int64.sub; autorewrite with int64.

(** ** Slices *)

Lemma slice_get_Ok s i v :
  slice_get s i = Ok v ↔ 0 ≤ i ∧ s !! Z.to_nat i = Some v.
Proof.
  unfold slice_get. case_decide as Hi.
  - destruct (s !! Z.to_nat i) as [w|].
    + split; [intros [= ->]; done | intros [_ [= ->]]; done].
    + split; [done | intros [_ [=]]].
  - split; [done | intros [? _]; lia].
Qed.

Lemma slice_get_nat s (j : nat) v :
  s !! j = Some v → slice_get s (Z.of_nat j) = Ok v.
Proof. intros H. apply slice_get_Ok. rewrite Nat2Z.id. split; [lia | done]. Qed.

Lemma slice_get_panic s i e : slice_get s i = Panic e → e = IndexOutOfRange.
Proof.
  unfold slice_get. case_decide; [destruct (s !! Z.to_nat i) |]; congruence.
Qed.

(** ** Traces *)

Lemma ticks_app tr1 tr2 : ticks (tr1 ++ tr2) = (ticks tr1 + ticks tr2)%nat.
Proof.
  induction tr1 as [|[v|] tr1 IH]; simpl; [done | done | by rewrite IH].
Qed.

Lemma aged_snoc_add w k tr v :
  aged w k (tr ++ [EvAdd v]) =
  aged w k tr + (if decide (k = O) then w v else 0).
Proof.
  induction tr as [|[u|] tr IH]; simpl.
  - repeat case_decide; lia.
  - rewrite IH, ticks_app. simpl. rewrite Nat.add_0_r. lia.
  - done.
Qed.

Lemma aged_snoc_tick w k tr :
  aged w k (tr ++ [EvTick]) =
  match k with O => 0 | S k' => aged w k' tr end.
Proof.
  induction tr as [|[u|] tr IH]; simpl.
  - by destruct k.
  - rewrite IH, ticks_app. simpl. destruct k as [|k'].
    + case_decide; lia.
    + repeat case_decide; lia.
  - done.
Qed.

Lemma sum_to_ext n f g :
  (∀ k, (k < n)%nat → f k = g k) → sum_to n f = sum_to n g.
Proof.
  induction n as [|n IH]; intros H; simpl; [done |].
  rewrite IH, H by (intros; apply H; lia) || lia. done.
Qed.

Lemma sum_to_shift n f : sum_to (S n) f = f O + sum_to n (λ k, f (S k)).
Proof.
  induction n as [|n IH]; [simpl; lia |].
  change (sum_to (S (S n)) f) with (sum_to (S n) f + f (S n)).
  rewrite IH. simpl. lia.
Qed.

Lemma sum_to_zero n f : (∀ k, (k < n)%nat → f k = 0) → sum_to n f = 0.
Proof.
  induction n as [|n IH]; intros H; simpl; [done |].
  rewrite IH, H by (intros; apply H; lia) || lia. done.
Qed.

(** Exactly one term of the sum is not zero. *)
Lemma sum_to_single n t v :
  sum_to n (λ k, if decide (t = k) then v else 0) =
  if decide (t < n)%nat then v else 0.
Proof.
  induction n as [|n IH]; cbn [sum_to].
  - case_decide; [lia | done].
  - rewrite IH. repeat case_decide; lia.
Qed.

Lemma sum_to_add n f g :
  sum_to n (λ k, f k + g k) = sum_to n f + sum_to n g.
Proof. induction n as [|n IH]; simpl; [done | rewrite IH; lia]. Qed.

(** The cells of a window together hold what the recent calls added. *)
Lemma sum_aged_recent w g tr :
  sum_to g (λ k, aged w k tr) = sumZ (w <$> recent g tr).
Proof.
  induction tr as [|[v|] tr IH]; simpl.
  - apply sum_to_zero. done.
  - rewrite sum_to_add, sum_to_single, IH.
    case_decide; [rewrite fmap_cons; unfold sumZ; simpl |]; lia.
  - done.
Qed.

(** ** The ring invariant is established and kept *)

Section Ring.

Variable w : Z → Z.
Variable g : nat.

Lemma ring_inv_init :
  (0 < g)%nat → ring_inv w g [] 0 (replicate g 0) 0.
Proof.
  intros Hg. exists O. repeat split; [lia | apply length_replicate | |].
  - intros j Hj. by rewrite lookup_replicate_2.
  - rewrite sum_to_zero; done.
Qed.

Lemma ring_inv_add tr carry cells idx v :
  ring_inv w g tr carry cells idx →
  ∃ new cells',
    atomic.AddInt64 cells idx (w v) = Ok (new, cells') ∧
    ring_inv w g (tr ++ [EvAdd v]) carry cells' idx.
Proof.
  intros (i & -> & Hi & Hlen & Hcells & Hcarry).
  unfold atomic.AddInt64.
  rewrite (slice_get_nat _ _ _ (Hcells i Hi)). simpl. rewrite Nat2Z.id.
  eexists _, _. split; [done |].
  exists i. repeat split; [done | by rewrite length_insert | |].
  - intros j Hj. rewrite aged_snoc_add.
    destruct (decide (i = j)) as [<- | Hne].
    + rewrite list_lookup_insert_eq by lia. f_equal.
      unfold age. rewrite decide_True by lia. rewrite Nat.sub_diag.
      rewrite decide_True by done. int64_norm. done.
    + rewrite list_lookup_insert_ne by done. rewrite Hcells by done.
      unfold age. repeat case_decide; (lia || (do 2 f_equal; lia)).
  - rewrite Hcarry. f_equal. apply sum_to_ext. intros k _.
    rewrite aged_snoc_add. rewrite decide_False by done. lia.
Qed.

Lemma ring_inv_rotate tr carry cells idx :
  (2 ≤ g)%nat → Z.of_nat g ≤ Int64.max_int →
  ring_inv w g tr carry cells idx →
  ∃ idx' old cells' b,
    int_rem (Int64.add idx 1) (Z.of_nat g) = Ok idx' ∧
    atomic.SwapInt64 cells idx' 0 = Ok (old, cells') ∧
    slice_get cells' idx = Ok b ∧
    ring_inv w g (tr ++ [EvTick])
      (Int64.add carry (Int64.sub b old)) cells' idx'.
Proof.
  intros Hg Hmax (i & -> & Hi & Hlen & Hcells & Hcarry).
  set (i' := if decide (S i = g) then O else S i).
  assert (Hi' : (i' < g)%nat) by (unfold i'; case_decide; lia).
  assert (Hne : i' ≠ i) by (unfold i'; case_decide; lia).
  assert (Hrem : int_rem (Int64.add (Z.of_nat i) 1) (Z.of_nat g)
                 = Ok (Z.of_nat i')).
  { unfold int_rem, Int64.add. rewrite decide_False by lia.
    rewrite wrap_id by (unfold Int64.in_range, Int64.min_int,
                          Int64.max_int in *; lia).
    f_equal. unfold i'. case_decide.
    - replace (Z.of_nat i + 1) with (Z.of_nat g) by lia.
      rewrite Z.rem_same by lia. done.
    - rewrite Z.rem_small by lia. lia. }
  exists (Z.of_nat i'), (Int64.wrap (aged w (age g i i') tr)),
    (<[i' := 0]> cells), (Int64.wrap (aged w (age g i i) tr)).
  split; [done |]. split; [| split].
  - unfold atomic.SwapInt64.
    rewrite (slice_get_nat _ _ _ (Hcells i' Hi')). simpl.
    by rewrite Nat2Z.id.
  - apply slice_get_nat. rewrite list_lookup_insert_ne by done.
    by apply Hcells.
  - exists i'. repeat split; [done | by rewrite length_insert | |].
    + intros j Hj. rewrite aged_snoc_tick.
      destruct (decide (i' = j)) as [<- | Hne'].
      * rewrite list_lookup_insert_eq by lia.
        unfold age. rewrite decide_True by lia. by rewrite Nat.sub_diag.
      * rewrite list_lookup_insert_ne by done. rewrite Hcells by done.
        replace (age g i' j) with (S (age g i j)); [done |].
        unfold age, i' in *. repeat case_decide; lia.
    + rewrite Hcarry. int64_norm.
      replace (age g i i) with O by (unfold age; case_decide; lia).
      replace (age g i i') with (g - 1)%nat
        by (unfold age, i' in *; repeat case_decide; lia).
      rewrite (sum_to_ext _ (λ k, aged w (S k) (tr ++ [EvTick]))
                 (λ k, aged w k tr))
        by (intros; by rewrite aged_snoc_tick).
      f_equal.
      pose proof (sum_to_shift (g - 1) (λ k, aged w k tr)) as Hs.
      cbn [sum_to] in Hs. lia.
Qed.

Lemma ring_inv_read tr carry cells idx :
  ring_inv w g tr carry cells idx →
  ∃ v, atomic.LoadInt64 cells idx = Ok v ∧
       Int64.add carry v = Int64.wrap (sumZ (w <$> recent g tr)) ∧
       Int64.add v carry = Int64.wrap (sumZ (w <$> recent g tr)).
Proof.
  intros (i & -> & Hi & Hlen & Hcells & Hcarry).
  exists (Int64.wrap (aged w (age g i i) tr)). split.
  - unfold atomic.LoadInt64. apply slice_get_nat. by apply Hcells.
  - rewrite Hcarry, <-sum_aged_recent. int64_norm.
    replace (age g i i) with O by (unfold age; case_decide; lia).
    destruct g as [|g']; [lia |].
    rewrite sum_to_shift. simpl. rewrite Nat.sub_0_r.
    split; f_equal; lia.
Qed.

End Ring.

(** ** Runs *)

Section RunFacts.

Context {T : Type}.
Variable add : T → Z → result T.
Variable rotate : Z → T → result T.

Lemma run_app task r tr1 tr2 :
  run add rotate task r (tr1 ++ tr2) =
  run add rotate task r tr1 ≫= λ r', run add rotate task r' tr2.
Proof.
  revert r. induction tr1 as [|e tr1 IH]; intros r; simpl; [done |].
  destruct (exec add rotate task r e) as [r'|p]; simpl; [apply IH | done].
Qed.

Lemma run_snoc task r tr e r' :
  run add rotate task r tr = Ok r' →
  run add rotate task r (tr ++ [e]) = exec add rotate task r' e.
Proof.
  intros H. rewrite run_app, H. simpl.
  by destruct (exec add rotate task r' e).
Qed.

Lemma iterate_run task r n :
  run add rotate task r (replicate n EvTick) =
  iterate (λ x, exec add rotate task x EvTick) n r.
Proof.
  revert r. induction n as [|n IH]; intros r; simpl; [done |].
  destruct task as [t|]; simpl.
  - destruct (rotate (rot_gran t) r); simpl; [apply IH | done].
  - apply IH.
Qed.

End RunFacts.

(** ** [RateCounter] *)

Lemma rc_new_degenerate interval gran :
  interval ≤ 0 ∨ gran ≤ 1 →
  RateCounter.NewRateCounterWithGranularity interval gran =
  ({| RateCounter.others := 0; RateCounter.bins := [0];
      RateCounter.index := 0 |}, None).
Proof.
  intros H. unfold RateCounter.NewRateCounterWithGranularity.
  by rewrite decide_True.
Qed.

Lemma rc_new_windowed interval gran :
  0 < interval → 2 ≤ gran →
  RateCounter.NewRateCounterWithGranularity interval gran =
  ({| RateCounter.others := 0;
      RateCounter.bins := replicate (Z.to_nat gran) 0;
      RateCounter.index := 0 |},
   Some {| rot_gran := gran; rot_period := interval ÷ gran |}).
Proof.
  intros H1 H2. unfold RateCounter.NewRateCounterWithGranularity.
  rewrite decide_False by lia. done.
Qed.

Lemma rc_add_inv g tr r v :
  rc_inv g tr r →
  ∃ r', RateCounter.Add r v = Ok r' ∧ rc_inv g (tr ++ [EvAdd v]) r'.
Proof.
  intros H. destruct (ring_inv_add id g tr _ _ _ v H) as (new & cells' & Ha & Hi).
  unfold RateCounter.Add. unfold id in Ha. rewrite Ha. simpl.
  eexists. split; [done |]. exact Hi.
Qed.

Lemma rc_rotate_inv gran tr r :
  2 ≤ gran ≤ Int64.max_int →
  rc_inv (Z.to_nat gran) tr r →
  ∃ r', RateCounter.rotate gran r = Ok r' ∧
        rc_inv (Z.to_nat gran) (tr ++ [EvTick]) r'.
Proof.
  intros Hg H.
  destruct (ring_inv_rotate id (Z.to_nat gran) tr _ _ _ ltac:(lia) ltac:(lia) H)
    as (idx' & old & cells' & b & Hrem & Hswap & Hget & Hi).
  rewrite Z2Nat.id in Hrem by lia.
  unfold RateCounter.rotate. rewrite Hrem. simpl. rewrite Hswap. simpl.
  rewrite Hget. simpl. eexists. split; [done |]. exact Hi.
Qed.

Lemma rc_rate_inv g tr r :
  rc_inv g tr r →
  RateCounter.Rate r = Ok (Int64.wrap (sumZ (recent g tr))).
Proof.
  intros H. destruct (ring_inv_read id g tr _ _ _ H) as (v & Hv & Hsum & _).
  unfold RateCounter.Rate. rewrite Hv. simpl. rewrite Hsum.
  by rewrite list_fmap_id.
Qed.

(** A windowed counter keeps the invariant along every run. *)
Lemma rc_run_windowed interval gran tr :
  0 < interval → 2 ≤ gran ≤ Int64.max_int →
  let c := RateCounter.NewRateCounterWithGranularity interval gran in
  ∃ r, run RateCounter.Add RateCounter.rotate c.2 c.1 tr = Ok r ∧
       rc_inv (Z.to_nat gran) tr r.
Proof.
  intros Hi Hg. rewrite rc_new_windowed by lia. simpl.
  induction tr as [|e tr IH] using rev_ind.
  - eexists. split; [done |]. apply ring_inv_init. lia.
  - destruct IH as (r & Hrun & Hinv).
    rewrite (run_snoc _ _ _ _ _ _ _ Hrun).
    destruct e as [v|]; simpl.
    + by apply rc_add_inv.
    + by apply rc_rotate_inv.
Qed.

Lemma sumZ_cons x l : sumZ (x :: l) = x + sumZ l.
Proof. done. Qed.

Lemma sumZ_app l1 l2 : sumZ (l1 ++ l2) = sumZ l1 + sumZ l2.
Proof. induction l1 as [|x l1 IH]; simpl; [done | rewrite IH; lia]. Qed.

Lemma sumZ_replicate n v : sumZ (replicate n v) = Z.of_nat n * v.
Proof. induction n as [|n IH]; simpl; [done | rewrite IH; lia]. Qed.

Lemma sumZ_const_one (l : list Z) : sumZ ((λ _, 1) <$> l) = Z.of_nat (length l).
Proof.
  induction l as [|x l IH]; [done |].
  rewrite fmap_cons. unfold sumZ in *. cbn [foldr length]. rewrite IH. lia.
Qed.

Lemma added_app tr1 tr2 : added (tr1 ++ tr2) = added tr1 ++ added tr2.
Proof.
  induction tr1 as [|[v|] tr1 IH]; simpl; [done | by rewrite IH | done].
Qed.

Lemma added_replicate_add n v : added (replicate n (EvAdd v)) = replicate n v.
Proof. induction n as [|n IH]; simpl; [done | by rewrite IH]. Qed.

(** A counter with no goroutine holds the total of everything added. *)
Lemma rc_run_degenerate tr :
  run RateCounter.Add RateCounter.rotate None
    {| RateCounter.others := 0; RateCounter.bins := [0];
       RateCounter.index := 0 |} tr =
  Ok {| RateCounter.others := 0;
        RateCounter.bins := [Int64.wrap (sumZ (added tr))];
        RateCounter.index := 0 |}.
Proof.
  induction tr as [|e tr IH] using rev_ind; [done |].
  rewrite (run_snoc _ _ _ _ _ _ _ IH), added_app, sumZ_app.
  destruct e as [v|]; simpl.
  - unfold RateCounter.Add, atomic.AddInt64. simpl. int64_norm.
    by rewrite Z.add_0_r.
  - by rewrite Z.add_0_r.
Qed.

(** ** [MovingAverage] *)

Lemma ma_new_degenerate interval gran :
  interval ≤ 0 ∨ gran ≤ 1 →
  MovingAverage.NewMovingAverageWithGranularity interval gran =
  ({| MovingAverage.otherSums := 0; MovingAverage.otherCounts := 0;
      MovingAverage.sums := [0]; MovingAverage.counts := [0];
      MovingAverage.index := 0 |}, None).
Proof.
  intros H. unfold MovingAverage.NewMovingAverageWithGranularity.
  by rewrite decide_True.
Qed.

Lemma ma_new_windowed interval gran :
  0 < interval → 2 ≤ gran →
  MovingAverage.NewMovingAverageWithGranularity interval gran =
  ({| MovingAverage.otherSums := 0; MovingAverage.otherCounts := 0;
      MovingAverage.sums := replicate (Z.to_nat gran) 0;
      MovingAverage.counts := replicate (Z.to_nat gran) 0;
      MovingAverage.index := 0 |},
   Some {| rot_gran := gran; rot_period := interval ÷ gran |}).
Proof.
  intros H1 H2. unfold MovingAverage.NewMovingAverageWithGranularity.
  rewrite decide_False by lia. done.
Qed.

Lemma ma_add_inv g tr m v :
  ma_inv g tr m →
  ∃ m', MovingAverage.Add m v = Ok m' ∧ ma_inv g (tr ++ [EvAdd v]) m'.
Proof.
  intros [Hs Hn].
  destruct (ring_inv_add id g tr _ _ _ v Hs) as (? & sums' & Has & His).
  destruct (ring_inv_add (λ _, 1) g tr _ _ _ v Hn) as (? & counts' & Han & Hin).
  unfold MovingAverage.Add. unfold id in Has. rewrite Has. simpl.
  rewrite Han. simpl. eexists. split; [done |]. split; [exact His | exact Hin].
Qed.

Lemma ma_rotate_inv gran tr m :
  2 ≤ gran ≤ Int64.max_int →
  ma_inv (Z.to_nat gran) tr m →
  ∃ m', MovingAverage.rotate gran m = Ok m' ∧
        ma_inv (Z.to_nat gran) (tr ++ [EvTick]) m'.
Proof.
  intros Hg [Hs Hn].
  destruct (ring_inv_rotate id (Z.to_nat gran) tr _ _ _ ltac:(lia) ltac:(lia) Hs)
    as (idx' & s & sums' & bs & Hrem & Hswap & Hget & His).
  destruct (ring_inv_rotate (λ _, 1) (Z.to_nat gran) tr _ _ _
              ltac:(lia) ltac:(lia) Hn)
    as (idx'' & n & counts' & bn & Hrem' & Hswap' & Hget' & Hin).
  rewrite Hrem in Hrem'. injection Hrem' as <-.
  rewrite Z2Nat.id in Hrem by lia.
  unfold MovingAverage.rotate. rewrite Hrem. simpl. rewrite Hswap. simpl.
  rewrite Hswap'. simpl. rewrite Hget. simpl. rewrite Hget'. simpl.
  eexists. split; [done |]. split; [exact His | exact Hin].
Qed.

Lemma ma_aggregate_inv g tr m :
  ma_inv g tr m →
  MovingAverage.aggregate m =
  Ok (Int64.wrap (sumZ (recent g tr)),
      Int64.wrap (Z.of_nat (length (recent g tr)))).
Proof.
  intros [Hs Hn].
  destruct (ring_inv_read id g tr _ _ _ Hs) as (s & Hls & _ & Hsum).
  destruct (ring_inv_read (λ _, 1) g tr _ _ _ Hn) as (n & Hln & _ & Hcnt).
  unfold MovingAverage.aggregate. rewrite Hls. simpl. rewrite Hln. simpl.
  rewrite Hsum, Hcnt, list_fmap_id, sumZ_const_one. done.
Qed.

Lemma ma_run_windowed interval gran tr :
  0 < interval → 2 ≤ gran ≤ Int64.max_int →
  let c := MovingAverage.NewMovingAverageWithGranularity interval gran in
  ∃ m, run MovingAverage.Add MovingAverage.rotate c.2 c.1 tr = Ok m ∧
       ma_inv (Z.to_nat gran) tr m.
Proof.
  intros Hi Hg. rewrite ma_new_windowed by lia. simpl.
  induction tr as [|e tr IH] using rev_ind.
  - eexists. split; [done |]. split; apply ring_inv_init; lia.
  - destruct IH as (m & Hrun & Hinv).
    rewrite (run_snoc _ _ _ _ _ _ _ Hrun).
    destruct e as [v|]; simpl.
    + by apply ma_add_inv.
    + by apply ma_rotate_inv.
Qed.

Lemma ma_run_degenerate tr :
  run MovingAverage.Add MovingAverage.rotate None
    {| MovingAverage.otherSums := 0; MovingAverage.otherCounts := 0;
       MovingAverage.sums := [0]; MovingAverage.counts := [0];
       MovingAverage.index := 0 |} tr =
  Ok {| MovingAverage.otherSums := 0; MovingAverage.otherCounts := 0;
        MovingAverage.sums := [Int64.wrap (sumZ (added tr))];
        MovingAverage.counts := [Int64.wrap (Z.of_nat (length (added tr)))];
        MovingAverage.index := 0 |}.
Proof.
  induction tr as [|e tr IH] using rev_ind; [done |].
  rewrite (run_snoc _ _ _ _ _ _ _ IH), added_app, sumZ_app, length_app.
  destruct e as [v|]; simpl.
  - unfold MovingAverage.Add, atomic.AddInt64. simpl. int64_norm.
    rewrite Z.add_0_r. do 4 f_equal. lia.
  - rewrite Z.add_0_r, Nat.add_0_r. done.
Qed.

Lemma aged_replicate_tick w k n : aged w k (replicate n EvTick) = 0.
Proof. induction n as [|n IH]; simpl; done. Qed.

Lemma ticks_replicate_tick n : ticks (replicate n EvTick) = n.
Proof. induction n as [|n IH]; simpl; [done | by rewrite IH]. Qed.

Lemma recent_replicate_tick g n : recent g (replicate n EvTick) = [].
Proof. induction n as [|n IH]; simpl; done. Qed.

(** After [g] ticks or more, nothing of one earlier call is left in a ring. *)
Lemma ring_inv_stale w g v n carry cells idx :
  (g ≤ n)%nat →
  ring_inv w g (EvAdd v :: replicate n EvTick) carry cells idx →
  cells = replicate g 0 ∧ carry = 0.
Proof.
  intros Hn (i & -> & Hi & Hlen & Hcells & Hcarry).
  assert (Hz : ∀ k, (k < g)%nat → aged w k (EvAdd v :: replicate n EvTick) = 0).
  { intros k Hk. simpl. rewrite ticks_replicate_tick, aged_replicate_tick.
    rewrite decide_False by lia. done. }
  split.
  - apply list_eq. intros j. destruct (decide (j < g)%nat) as [Hj | Hj].
    + rewrite Hcells, lookup_replicate_2 by done. rewrite Hz; [done |].
      unfold age. case_decide; lia.
    + rewrite (lookup_ge_None_2 cells j) by lia.
      rewrite lookup_ge_None_2; [done |]. rewrite length_replicate. lia.
  - rewrite Hcarry, sum_to_zero; [done |]. intros k Hk. apply Hz. lia.
Qed.

(** ** The claims *)

(** C1. At every point of a sequential run of [Add] calls and rotation
    ticks, on a [RateCounter] and on a [MovingAverage] however constructed,
    what [Rate] returns, and the (sum, count) aggregate [Average] reads, is
    the value stored in the active bucket plus the carried-over aggregate
    (in [int64] arithmetic).  On a windowed instance it follows that [Rate]
    is the [int64] sum of the deltas added during the most recent [gran]
    bucket periods, the deltas that fewer than [gran] rotation ticks follow;
    older ones are excluded.  The aggregate of the average is likewise the sum
    and the number of the recent samples. *)
Theorem rate_is_active_plus_carry (interval gran : Z) (tr : list event) :
  gran ≤ Int64.max_int →
  ∃ r m,
    run RateCounter.Add RateCounter.rotate
      (RateCounter.NewRateCounterWithGranularity interval gran).2
      (RateCounter.NewRateCounterWithGranularity interval gran).1 tr = Ok r ∧
    run MovingAverage.Add MovingAverage.rotate
      (MovingAverage.NewMovingAverageWithGranularity interval gran).2
      (MovingAverage.NewMovingAverageWithGranularity interval gran).1 tr
      = Ok m ∧
    (∃ v, slice_get (RateCounter.bins r) (RateCounter.index r) = Ok v ∧
          RateCounter.Rate r = Ok (Int64.add (RateCounter.others r) v)) ∧
    (∃ s n,
        slice_get (MovingAverage.sums m) (MovingAverage.index m) = Ok s ∧
        slice_get (MovingAverage.counts m) (MovingAverage.index m) = Ok n ∧
        MovingAverage.aggregate m =
        Ok (Int64.add s (MovingAverage.otherSums m),
            Int64.add n (MovingAverage.otherCounts m))) ∧
    (0 < interval → 2 ≤ gran →
     RateCounter.Rate r =
       Ok (Int64.wrap (sumZ (recent (Z.to_nat gran) tr))) ∧
     MovingAverage.aggregate m =
       Ok (Int64.wrap (sumZ (recent (Z.to_nat gran) tr)),
           Int64.wrap (Z.of_nat (length (recent (Z.to_nat gran) tr))))).
Proof.
  intros Hmax.
  destruct (decide (interval ≤ 0 ∨ gran ≤ 1)) as [Hdeg | Hwin].
  - rewrite rc_new_degenerate, ma_new_degenerate by done. simpl.
    rewrite rc_run_degenerate, ma_run_degenerate.
    eexists _, _. repeat split; [| | lia | lia].
    + eexists. split; [reflexivity | reflexivity].
    + eexists _, _. repeat split; reflexivity.
  - assert (0 < interval ∧ 2 ≤ gran) as [Hi Hg] by lia.
    destruct (rc_run_windowed interval gran tr) as (r & Hr & Hrinv); [lia | lia |].
    destruct (ma_run_windowed interval gran tr) as (m & Hm & Hminv); [lia | lia |].
    exists r, m. split; [exact Hr |]. split; [exact Hm |].
    split; [| split].
    + destruct (ring_inv_read _ _ _ _ _ _ Hrinv) as (v & Hv & _).
      exists v. split; [exact Hv |].
      unfold RateCounter.Rate. by rewrite Hv.
    + destruct Hminv as [Hs Hn].
      destruct (ring_inv_read _ _ _ _ _ _ Hs) as (s & Hls & _).
      destruct (ring_inv_read _ _ _ _ _ _ Hn) as (n & Hln & _).
      exists s, n. split; [exact Hls |]. split; [exact Hln |].
      unfold MovingAverage.aggregate. by rewrite Hls, Hln.
    + intros _ _. split; [by apply rc_rate_inv | by apply ma_aggregate_inv].
Qed.

(** A window of four buckets: of the deltas 5, 7 and 2, the first is
    followed by four ticks and has left the window. *)
Lemma rate_is_active_plus_carry_witness :
  4 ≤ Int64.max_int ∧
  ∃ r,
    run RateCounter.Add RateCounter.rotate
      (RateCounter.NewRateCounterWithGranularity 1000 4).2
      (RateCounter.NewRateCounterWithGranularity 1000 4).1
      [EvAdd 5; EvTick; EvAdd 7; EvTick; EvTick; EvTick; EvAdd 2] = Ok r ∧
    RateCounter.Rate r = Ok 9.
Proof.
  split; [done |].
  destruct (rate_is_active_plus_carry 1000 4
              [EvAdd 5; EvTick; EvAdd 7; EvTick; EvTick; EvTick; EvAdd 2])
    as (r & m & Hr & _ & _ & _ & Hw); [done |].
  exists r. split; [exact Hr |].
  destruct Hw as [Hrate _]; [lia | lia |]. exact Hrate.
Defined.

(** C2. Constructed with [interval ≤ 0] or [gran ≤ 1], a counter (and an
    average) has exactly one bucket and no rotation goroutine.  After [k]
    sequential calls [Add(1)], for every [k] that an [int64] can hold, [Rate]
    returns [k]; letting any amount of time pass changes nothing, so [Rate]
    still returns [k]. *)
Theorem degenerate_mode_never_resets (interval gran : Z) (k : nat) (d : Z) :
  interval ≤ 0 ∨ gran ≤ 1 →
  Z.of_nat k ≤ Int64.max_int →
  let c := RateCounter.NewRateCounterWithGranularity interval gran in
  let a := MovingAverage.NewMovingAverageWithGranularity interval gran in
  length (RateCounter.bins c.1) = 1%nat ∧ c.2 = None ∧
  length (MovingAverage.sums a.1) = 1%nat ∧
  length (MovingAverage.counts a.1) = 1%nat ∧ a.2 = None ∧
  ∃ r,
    run RateCounter.Add RateCounter.rotate c.2 c.1 (replicate k (EvAdd 1))
      = Ok r ∧
    RateCounter.Rate r = Ok (Z.of_nat k) ∧
    elapse RateCounter.rotate d (start (r, c.2)) = Ok (start (r, c.2)) ∧
    ∀ n, run RateCounter.Add RateCounter.rotate c.2 r (replicate n EvTick)
         = Ok r.
Proof.
  intros Hdeg Hk. simpl.
  rewrite rc_new_degenerate, ma_new_degenerate by done. simpl.
  repeat (split; [done |]).
  rewrite rc_run_degenerate. eexists. split; [done |].
  rewrite added_replicate_add, sumZ_replicate, Z.mul_1_r.
  rewrite wrap_id by int64_range.
  split; [| split; [done |]].
  - unfold RateCounter.Rate, Int64.add. simpl. by rewrite wrap_id by int64_range.
  - intros n. induction n as [|n IH]; simpl; done.
Qed.

Lemma degenerate_mode_never_resets_witness :
  (5 ≤ 0 ∨ 1 ≤ 1) ∧ Z.of_nat 37 ≤ Int64.max_int ∧
  ∃ r,
    run RateCounter.Add RateCounter.rotate
      (RateCounter.NewRateCounterWithGranularity 5 1).2
      (RateCounter.NewRateCounterWithGranularity 5 1).1
      (replicate 37 (EvAdd 1)) = Ok r ∧
    RateCounter.Rate r = Ok 37 ∧
    elapse RateCounter.rotate 1000000000
      (start (r, (RateCounter.NewRateCounterWithGranularity 5 1).2))
    = Ok (start (r, (RateCounter.NewRateCounterWithGranularity 5 1).2)).
Proof.
  split; [right; done |]. split; [done |].
  destruct (degenerate_mode_never_resets 5 1 37 1000000000)
    as (_ & _ & _ & _ & _ & r & Hr & Hrate & Hel & _); [right; done | done |].
  exists r. split; [exact Hr |]. split; [exact Hrate | exact Hel].
Defined.

(** The ticker of a windowed counter, over a stretch of time with no call:
    as many loop iterations as periods have passed. *)
Lemma elapse_windowed gran period d r :
  0 < period →
  elapse RateCounter.rotate d
    (start (r, Some {| rot_gran := gran; rot_period := period |})) =
  (r' ← run RateCounter.Add RateCounter.rotate
         (Some {| rot_gran := gran; rot_period := period |}) r
         (replicate (Z.to_nat (d / period)) EvTick);
   Ok {| inst := r';
         task := Some {| rot_gran := gran; rot_period := period |};
         since_tick := d mod period |}).
Proof.
  intros Hp. unfold elapse, start. simpl. rewrite decide_False by lia.
  rewrite iterate_run. simpl. done.
Qed.

(** C4. A counter constructed with [interval > 0] and [gran ≥ 2]: after one
    call [Add(1)] followed by [n ≥ gran] rotation steps and no other call,
    [Rate] returns [0]; every bucket and the carry are back to zero.  In
    terms of time: when the ticker period [interval / gran] is at least one
    nanosecond, waiting for the interval or longer after the call brings
    [Rate] to [0]. *)
Theorem windowed_eviction (interval gran : Z) (n : nat) :
  0 < interval → 2 ≤ gran ≤ Int64.max_int → (Z.to_nat gran ≤ n)%nat →
  let c := RateCounter.NewRateCounterWithGranularity interval gran in
  (∃ r,
     run RateCounter.Add RateCounter.rotate c.2 c.1
       (EvAdd 1 :: replicate n EvTick) = Ok r ∧
     RateCounter.Rate r = Ok 0 ∧
     RateCounter.bins r = replicate (Z.to_nat gran) 0 ∧
     RateCounter.others r = 0) ∧
  (∀ d, gran ≤ interval → interval ≤ d →
     ∃ r1 s,
       RateCounter.Add c.1 1 = Ok r1 ∧
       elapse RateCounter.rotate d (start (r1, c.2)) = Ok s ∧
       RateCounter.Rate (inst s) = Ok 0).
Proof.
  intros Hi Hg Hn c.
  assert (Hev : ∀ n', (Z.to_nat gran ≤ n')%nat →
    ∃ r, run RateCounter.Add RateCounter.rotate c.2 c.1
           (EvAdd 1 :: replicate n' EvTick) = Ok r ∧
         RateCounter.Rate r = Ok 0 ∧
         RateCounter.bins r = replicate (Z.to_nat gran) 0 ∧
         RateCounter.others r = 0).
  { intros n' Hn'.
    destruct (rc_run_windowed interval gran (EvAdd 1 :: replicate n' EvTick))
      as (r & Hr & Hinv); [lia | lia |].
    exists r. split; [exact Hr |].
    split; [| by eapply ring_inv_stale].
    rewrite (rc_rate_inv _ _ _ Hinv). simpl.
    rewrite ticks_replicate_tick, recent_replicate_tick.
    by rewrite decide_False by lia. }
  split; [by apply Hev |].
  intros d Hgi Hd.
  assert (Hp : 0 < interval ÷ gran).
  { apply Z.quot_str_pos. lia. }
  assert (Hticks : (Z.to_nat gran ≤ Z.to_nat (d / (interval ÷ gran)))%nat).
  { apply Z2Nat.inj_le; [lia | apply Z.div_pos; lia |].
    apply Z.div_le_lower_bound; [lia |].
    pose proof (Z.quot_rem' interval gran) as Hq.
    pose proof (Z.rem_nonneg interval gran ltac:(lia) ltac:(lia)). nia. }
  destruct (Hev _ Hticks) as (r & Hr & Hrate & _).
  subst c. rewrite rc_new_windowed in * by lia. simpl in *.
  destruct (RateCounter.Add _ 1) as [r1|] eqn:Hadd; [| done]. simpl in Hr.
  exists r1. rewrite elapse_windowed by done. rewrite Hr. simpl.
  eexists. split; [done |]. split; [done |]. exact Hrate.
Qed.

(** One second split into four buckets. *)
Lemma windowed_eviction_witness :
  0 < 1000000000 ∧ 2 ≤ 4 ≤ Int64.max_int ∧ (Z.to_nat 4 ≤ 4)%nat ∧
  (∃ r,
     run RateCounter.Add RateCounter.rotate
       (RateCounter.NewRateCounterWithGranularity 1000000000 4).2
       (RateCounter.NewRateCounterWithGranularity 1000000000 4).1
       [EvAdd 1; EvTick; EvTick; EvTick; EvTick] = Ok r ∧
     RateCounter.Rate r = Ok 0) ∧
  (∃ r1 s,
     RateCounter.Add
       (RateCounter.NewRateCounterWithGranularity 1000000000 4).1 1 = Ok r1 ∧
     elapse RateCounter.rotate 1000000001
       (start (r1, (RateCounter.NewRateCounterWithGranularity 1000000000 4).2))
     = Ok s ∧
     RateCounter.Rate (inst s) = Ok 0).
Proof.
  split; [done |]. split; [done |]. split; [vm_compute; lia |].
  destruct (windowed_eviction 1000000000 4 4) as [(r & Hr & Hrate & _) Htime];
    [done | done | vm_compute; lia |].
  split.
  - exists r. split; [exact Hr | exact Hrate].
  - apply Htime; done.
Defined.

(** ** The rotation step against the tick procedure *)

Lemma slice_get_insert_ne s i j v :
  0 ≤ i → 0 ≤ j → i ≠ j →
  slice_get (<[Z.to_nat j := v]> s) i = slice_get s i.
Proof.
  intros Hi Hj Hne. unfold slice_get.
  rewrite list_lookup_insert_ne by lia. done.
Qed.

(** The index the rotation moves to, for an active index inside the ring. *)
Lemma next_index gran i :
  2 ≤ gran ≤ Int64.max_int → 0 ≤ i < gran →
  int_rem (Int64.add i 1) gran = Ok ((i + 1) mod gran) ∧
  0 ≤ (i + 1) mod gran < gran ∧ (i + 1) mod gran ≠ i.
Proof.
  intros Hg Hi. unfold int_rem, Int64.add.
  rewrite decide_False by lia. rewrite wrap_id by int64_range.
  rewrite Z.rem_mod_nonneg by lia. split; [done |].
  split; [apply Z.mod_pos_bound; lia |].
  destruct (decide (i + 1 = gran)) as [Heq | Hne].
  - rewrite Heq, Z.mod_same by lia. lia.
  - rewrite Z.mod_small by lia. lia.
Qed.

Ltac case_slice_get s i :=
  let E := fresh "E" in
  destruct (slice_get s i) eqn:E;
  [| apply slice_get_panic in E; subst].

(** C3. For [gran ≥ 2] and an active index inside the ring, one iteration of
    the goroutine's loop is the four-step tick procedure, on a counter and
    on an average: same new state, and a panic in the same cases.  The code
    reads [bins[i]] after the swap and the procedure reads it before; the two
    reads agree because the swap writes to the cell [(i + 1) mod gran], which
    is not cell [i]. *)
Theorem rotation_refines_tick_procedure
    (gran : Z) (r : RateCounter.t) (m : MovingAverage.t) :
  2 ≤ gran ≤ Int64.max_int →
  0 ≤ RateCounter.index r < gran →
  0 ≤ MovingAverage.index m < gran →
  RateCounter.rotate gran r = tick_spec gran r ∧
  MovingAverage.rotate gran m = tick_spec_avg gran m ∧
  (RateCounter.index r + 1) mod gran ≠ RateCounter.index r ∧
  ∀ v bins',
    atomic.SwapInt64 (RateCounter.bins r)
      ((RateCounter.index r + 1) mod gran) 0 = Ok (v, bins') →
    slice_get bins' (RateCounter.index r) =
    slice_get (RateCounter.bins r) (RateCounter.index r).
Proof.
  intros Hg Hr Hm.
  destruct (next_index gran _ Hg Hr) as (Hrem & Hbound & Hne).
  destruct (next_index gran _ Hg Hm) as (Hrem' & Hbound' & Hne').
  split; [| split; [| split; [exact Hne |]]].
  - unfold RateCounter.rotate, tick_spec, atomic.SwapInt64.
    rewrite Hrem. simpl.
    case_slice_get (RateCounter.bins r) ((RateCounter.index r + 1) mod gran);
      simpl.
    + rewrite slice_get_insert_ne by lia.
      case_slice_get (RateCounter.bins r) (RateCounter.index r); done.
    + case_slice_get (RateCounter.bins r) (RateCounter.index r); done.
  - unfold MovingAverage.rotate, tick_spec_avg, atomic.SwapInt64.
    rewrite Hrem'. simpl.
    case_slice_get (MovingAverage.sums m)
      ((MovingAverage.index m + 1) mod gran);
    case_slice_get (MovingAverage.counts m)
      ((MovingAverage.index m + 1) mod gran);
    simpl; rewrite ?slice_get_insert_ne by lia;
    case_slice_get (MovingAverage.sums m) (MovingAverage.index m);
    case_slice_get (MovingAverage.counts m) (MovingAverage.index m);
    simpl; done.
  - intros v bins'. unfold atomic.SwapInt64.
    case_slice_get (RateCounter.bins r) ((RateCounter.index r + 1) mod gran);
      simpl; [| done].
    intros [= <- <-]. apply slice_get_insert_ne; lia.
Qed.

(** The counter [{others = 3, bins = [4; 0; 6], index = 2}] wraps around to
    cell 0; the average wraps likewise. *)
Lemma rotation_refines_tick_procedure_witness :
  2 ≤ 3 ≤ Int64.max_int ∧
  RateCounter.rotate 3
    {| RateCounter.others := 3; RateCounter.bins := [4; 0; 6];
       RateCounter.index := 2 |} =
  tick_spec 3
    {| RateCounter.others := 3; RateCounter.bins := [4; 0; 6];
       RateCounter.index := 2 |} ∧
  MovingAverage.rotate 3
    {| MovingAverage.otherSums := 50; MovingAverage.otherCounts := 2;
       MovingAverage.sums := [20; 30; 7]; MovingAverage.counts := [1; 1; 1];
       MovingAverage.index := 2 |} =
  tick_spec_avg 3
    {| MovingAverage.otherSums := 50; MovingAverage.otherCounts := 2;
       MovingAverage.sums := [20; 30; 7]; MovingAverage.counts := [1; 1; 1];
       MovingAverage.index := 2 |}.
Proof.
  split; [done |].
  destruct (rotation_refines_tick_procedure 3
    {| RateCounter.others := 3; RateCounter.bins := [4; 0; 6];
       RateCounter.index := 2 |}
    {| MovingAverage.otherSums := 50; MovingAverage.otherCounts := 2;
       MovingAverage.sums := [20; 30; 7]; MovingAverage.counts := [1; 1; 1];
       MovingAverage.index := 2 |}) as (Hrc & Hma & _);
    [done | done | done |].
  split; [exact Hrc | exact Hma].
Defined.

(** With a single bucket the two would differ (the cell read after the swap
    is the cell just cleared); the constructors start no goroutine then. *)
Example rotate_single_bucket :
  RateCounter.rotate 1
    {| RateCounter.others := 0; RateCounter.bins := [5];
       RateCounter.index := 0 |}
  ≠ tick_spec 1
    {| RateCounter.others := 0; RateCounter.bins := [5];
       RateCounter.index := 0 |}.
Proof. vm_compute. congruence. Qed.

(** ** Averages of the samples recorded *)





Lemma quot_in_range s n :
  Int64.in_range s → 1 ≤ n → Int64.in_range (s ÷ n).
Proof.
  unfold Int64.in_range, Int64.min_int, Int64.max_int. intros Hs Hn.
  destruct (decide (0 ≤ s)) as [Hpos | Hneg].
  - pose proof (Z.quot_pos s n ltac:(lia) ltac:(lia)).
    pose proof (Z.quot_le_upper_bound s n s ltac:(lia) ltac:(nia)). lia.
  - pose proof (Z.quot_opp_l s n ltac:(lia)) as Hopp.
    pose proof (Z.quot_pos (- s) n ltac:(lia) ltac:(lia)).
    pose proof (Z.quot_le_upper_bound (- s) n (- s) ltac:(lia) ltac:(nia)).
    lia.
Qed.



(** C6. [Average] never divides by zero: in no state whatever does it end in
    the integer-divide-by-zero panic; whenever the effective count (the
    active bucket's count plus the carried count) is [0] it returns [0]; and
    on a newly constructed average, in either mode, it returns [0]. *)
Theorem average_never_divides_by_zero :
  (∀ m : MovingAverage.t,
     MovingAverage.Average m ≠ Panic IntegerDivideByZero) ∧
  (∀ (m : MovingAverage.t) (s : Z),
     MovingAverage.aggregate m = Ok (s, 0) →
     MovingAverage.Average m = Ok 0) ∧
  (∀ interval gran : Z,
     MovingAverage.Average
       (MovingAverage.NewMovingAverageWithGranularity interval gran).1
     = Ok 0).
Proof.
  split; [| split].
  - intros m. unfold MovingAverage.Average, MovingAverage.aggregate,
      atomic.LoadInt64.
    case_slice_get (MovingAverage.sums m) (MovingAverage.index m);
      simpl; [| done].
    case_slice_get (MovingAverage.counts m) (MovingAverage.index m);
      simpl; [| done].
    case_decide; [done |]. unfold int_quo. by rewrite decide_False.
  - intros m s Hagg. unfold MovingAverage.Average. rewrite Hagg. done.
  - intros interval gran.
    destruct (decide (interval ≤ 0 ∨ gran ≤ 1)) as [Hdeg | Hwin].
    + by rewrite ma_new_degenerate.
    + rewrite ma_new_windowed by lia.
      unfold MovingAverage.Average, MovingAverage.aggregate,
        atomic.LoadInt64, slice_get. simpl.
      rewrite lookup_replicate_2 by lia. done.
Qed.

(** An effective count of zero next to a sum that is not: the active
    bucket holds three samples fewer than the carry. *)
Lemma average_never_divides_by_zero_witness :
  MovingAverage.aggregate
    {| MovingAverage.otherSums := 40; MovingAverage.otherCounts := 3;
       MovingAverage.sums := [0; -33]; MovingAverage.counts := [0; -3];
       MovingAverage.index := 1 |} = Ok (7, 0) ∧
  MovingAverage.Average
    {| MovingAverage.otherSums := 40; MovingAverage.otherCounts := 3;
       MovingAverage.sums := [0; -33]; MovingAverage.counts := [0; -3];
       MovingAverage.index := 1 |} = Ok 0.
Proof.
  destruct average_never_divides_by_zero as (_ & Hzero & _).
  split; [reflexivity |]. apply (Hzero _ 7). reflexivity.
Defined.

(** C9. [Add] does not look at its argument: whatever [val] is — positive,
    zero or negative — the active bucket goes from [v] to the [int64] sum
    [v + val], and neither the carry, the index nor any other bucket changes.
    On a new counter, [Add(-1)] makes [Rate] return [-1], which [String]
    renders with a leading minus sign. *)
Theorem add_is_unvalidated :
  (∀ (r : RateCounter.t) (val v : Z),
     slice_get (RateCounter.bins r) (RateCounter.index r) = Ok v →
     ∃ r',
       RateCounter.Add r val = Ok r' ∧
       slice_get (RateCounter.bins r') (RateCounter.index r')
         = Ok (Int64.add v val) ∧
       RateCounter.index r' = RateCounter.index r ∧
       RateCounter.others r' = RateCounter.others r ∧
       length (RateCounter.bins r') = length (RateCounter.bins r) ∧
       (∀ j, j ≠ Z.to_nat (RateCounter.index r) →
             RateCounter.bins r' !! j = RateCounter.bins r !! j)) ∧
  (∀ v val : Z, Int64.in_range (v + val) → Int64.add v val = v + val) ∧
  (∀ interval gran : Z,
     ∃ r,
       RateCounter.Add
         (RateCounter.NewRateCounterWithGranularity interval gran).1 (-1)
       = Ok r ∧
       RateCounter.Rate r = Ok (-1) ∧
       RateCounter.String r = Ok "-1"%string).
Proof.
  split; [| split].
  - intros r val v Hv.
    unfold RateCounter.Add, atomic.AddInt64. rewrite Hv. simpl.
    apply slice_get_Ok in Hv as [Hidx Hv]. apply lookup_lt_Some in Hv as Hlt.
    eexists. split; [done |]. simpl.
    split; [apply slice_get_Ok; split;
            [done | by apply list_lookup_insert_eq] |].
    repeat (split; [done |]).
    split; [by rewrite length_insert |].
    intros j Hj. by rewrite list_lookup_insert_ne.
  - intros v val Hr. by apply wrap_id.
  - intros interval gran.
    destruct (decide (interval ≤ 0 ∨ gran ≤ 1)) as [Hdeg | Hwin].
    + rewrite rc_new_degenerate by done. eexists. repeat split.
    + rewrite rc_new_windowed by lia.
      destruct (Z.to_nat gran) as [|[|g]] eqn:Hg; [lia | lia |].
      eexists. repeat split.
Qed.

Lemma add_is_unvalidated_witness :
  ∃ r,
    RateCounter.Add
      {| RateCounter.others := 4; RateCounter.bins := [1; 2; 3];
         RateCounter.index := 1 |} (-9) = Ok r ∧
    slice_get (RateCounter.bins r) (RateCounter.index r) = Ok (-7) ∧
    RateCounter.Rate r = Ok (-3).
Proof.
  destruct add_is_unvalidated as (Hadd & _ & _).
  destruct (Hadd {| RateCounter.others := 4; RateCounter.bins := [1; 2; 3];
                    RateCounter.index := 1 |} (-9) 2)
    as (r & Hr & Hcell & Hidx & Hoth & _); [done |].
  exists r. split; [exact Hr |]. split; [exact Hcell |].
  unfold RateCounter.Rate, atomic.LoadInt64. rewrite Hcell, Hoth. done.
Defined.

(** C10. [NewCounter()] is [NewRateCounterWithGranularity(0, 1)] and
    [NewAverage()] is [NewMovingAverageWithGranularity(0, 1)].  What they
    return has one bucket and no rotation goroutine, and is cumulative: along
    every run, ticks included, [Rate] is the [int64] total of everything
    added, and the aggregate of the average is the total and the number of
    all samples. *)
Theorem convenience_constructors_are_degenerate :
  RateCounter.NewCounter = RateCounter.NewRateCounterWithGranularity 0 1 ∧
  MovingAverage.NewAverage =
    MovingAverage.NewMovingAverageWithGranularity 0 1 ∧
  RateCounter.bins RateCounter.NewCounter.1 = [0] ∧
  RateCounter.NewCounter.2 = None ∧
  MovingAverage.sums MovingAverage.NewAverage.1 = [0] ∧
  MovingAverage.counts MovingAverage.NewAverage.1 = [0] ∧
  MovingAverage.NewAverage.2 = None ∧
  ∀ tr : list event,
    (∃ r,
       run RateCounter.Add RateCounter.rotate
         RateCounter.NewCounter.2 RateCounter.NewCounter.1 tr = Ok r ∧
       length (RateCounter.bins r) = 1%nat ∧
       RateCounter.Rate r = Ok (Int64.wrap (sumZ (added tr)))) ∧
    (∃ m,
       run MovingAverage.Add MovingAverage.rotate
         MovingAverage.NewAverage.2 MovingAverage.NewAverage.1 tr = Ok m ∧
       length (MovingAverage.sums m) = 1%nat ∧
       length (MovingAverage.counts m) = 1%nat ∧
       MovingAverage.aggregate m =
       Ok (Int64.wrap (sumZ (added tr)),
           Int64.wrap (Z.of_nat (length (added tr))))).
Proof.
  repeat (split; [reflexivity |]).
  intros tr. split.
  - change RateCounter.NewCounter.2 with (@None Rotation).
    change RateCounter.NewCounter.1 with
      {| RateCounter.others := 0; RateCounter.bins := [0];
         RateCounter.index := 0 |}.
    rewrite rc_run_degenerate. eexists. split; [done |]. split; [done |].
    unfold RateCounter.Rate. simpl. int64_norm. done.
  - change MovingAverage.NewAverage.2 with (@None Rotation).
    change MovingAverage.NewAverage.1 with
      {| MovingAverage.otherSums := 0; MovingAverage.otherCounts := 0;
         MovingAverage.sums := [0]; MovingAverage.counts := [0];
         MovingAverage.index := 0 |}.
    rewrite ma_run_degenerate. eexists. split; [done |].
    split; [done |]. split; [done |].
    unfold MovingAverage.aggregate. simpl. int64_norm.
    by rewrite !Z.add_0_r.
Qed.

(** ** Rendering and parsing decimal integers *)

Section Strconv.

Import strconv.
Local Open Scope string_scope.

Lemma digit_cases d :
  0 ≤ d < 10 →
  d = 0 ∨ d = 1 ∨ d = 2 ∨ d = 3 ∨ d = 4 ∨
  d = 5 ∨ d = 6 ∨ d = 7 ∨ d = 8 ∨ d = 9.
Proof. lia. Qed.

Lemma digit_val_char d : 0 ≤ d < 10 → digit_val (digit_char d) = Some d.
Proof.
  intros H. destruct (digit_cases d H) as [->|[->|[->|[->|[->|[->|[->|[->|[->| ->]]]]]]]]];
    reflexivity.
Qed.

Lemma is_digit_char d : 0 ≤ d < 10 → is_digit (digit_char d) = true.
Proof.
  intros H. destruct (digit_cases d H) as [->|[->|[->|[->|[->|[->|[->|[->|[->| ->]]]]]]]]];
    reflexivity.
Qed.

Lemma digit_char_nonzero d : 0 < d < 10 → Ascii.eqb (digit_char d) "0" = false.
Proof.
  intros H.
  assert (H' : 0 ≤ d < 10) by lia.
  destruct (digit_cases d H') as [->|[->|[->|[->|[->|[->|[->|[->|[->| ->]]]]]]]]];
    (lia || reflexivity).
Qed.

(** Parsing what [formatBits] wrote yields the number back, in front of
    whatever follows. *)
Lemma formatBits_parse fuel :
  ∀ u acc, 0 ≤ u < 10 ^ Z.of_nat fuel →
  ∃ k, 0 ≤ k ∧
    ∀ a, parse_digits (formatBits fuel u acc) a =
         parse_digits acc (a * 10 ^ k + u).
Proof.
  induction fuel as [|fuel IH]; intros u acc Hu.
  - exists 0. split; [done |]. intros a. simpl in *.
    f_equal. lia.
  - cbn [formatBits]. case_decide as Hlt.
    + exists 1. split; [done |]. intros a. cbn [parse_digits].
      rewrite digit_val_char by lia. f_equal. lia.
    + assert (Hq : 0 ≤ u ÷ 10 < 10 ^ Z.of_nat fuel).
      { rewrite Nat2Z.inj_succ, Z.pow_succ_r in Hu by lia.
        split; [apply Z.quot_pos; lia |].
        apply Z.quot_lt_upper_bound; lia. }
      destruct (IH (u ÷ 10) (String (digit_char (Z.rem u 10)) acc) Hq)
        as (k & Hk & Hparse).
      exists (k + 1). split; [lia |]. intros a. rewrite Hparse.
      cbn [parse_digits].
      pose proof (Z.rem_bound_pos u 10 ltac:(lia) ltac:(lia)) as Hr.
      rewrite digit_val_char by lia. f_equal.
      rewrite Z.pow_add_r by lia.
      pose proof (Z.quot_rem' u 10). lia.
Qed.

(** What [formatBits] writes: a digit, not [0] unless the number is zero,
    then digits only. *)
Lemma formatBits_shape fuel :
  ∀ u acc, 0 ≤ u < 10 ^ Z.of_nat (S fuel) → all_digits acc = true →
  ∃ c rest,
    formatBits (S fuel) u acc = String c rest ∧
    is_digit c = true ∧ all_digits rest = true ∧
    (0 < u → Ascii.eqb c "0" = false) ∧
    (u = 0 → rest = acc).
Proof.
  induction fuel as [|fuel IH]; intros u acc Hu Hacc.
  - cbn [formatBits]. change (10 ^ Z.of_nat 1) with 10 in Hu.
    rewrite decide_True by lia.
    eexists _, _. split; [done |].
    split; [apply is_digit_char; lia |]. split; [done |].
    split; [intros; apply digit_char_nonzero; lia | done].
  - cbn [formatBits]. case_decide as Hlt.
    + eexists _, _. split; [done |].
      split; [apply is_digit_char; lia |]. split; [done |].
      split; [intros; apply digit_char_nonzero; lia | done].
    + assert (Hq : 0 < u ÷ 10 < 10 ^ Z.of_nat (S fuel)).
      { rewrite (Nat2Z.inj_succ (S fuel)), Z.pow_succ_r in Hu by lia.
        split; [apply Z.quot_str_pos; lia |].
        apply Z.quot_lt_upper_bound; lia. }
      pose proof (Z.rem_bound_pos u 10 ltac:(lia) ltac:(lia)) as Hr.
      destruct (IH (u ÷ 10) (String (digit_char (Z.rem u 10)) acc))
        as (c & rest & Heq & Hc & Hrest & Hnz & _); [lia | |].
      { cbn [all_digits]. rewrite is_digit_char by lia. done. }
      exists c, rest. split; [exact Heq |].
      split; [done |]. split; [done |].
      split; [intros _; apply Hnz; lia | lia].
Qed.

(** A string that starts with a digit carries no sign. *)
Lemma ParseInt_unsigned c s :
  is_digit c = true →
  ParseInt (String c s) =
  match parse_unsigned (String c s) with
  | Some n => if decide (n ≤ Int64.max_int)%Z then Some n else None
  | None => None
  end.
Proof.
  intros H.
  destruct c as [[] [] [] [] [] [] [] []]; vm_compute in H;
    try discriminate H; reflexivity.
Qed.

Lemma canonical_decimal_unsigned c s :
  is_digit c = true →
  canonical_decimal (String c s) = canonical_unsigned (String c s).
Proof.
  intros H.
  destruct c as [[] [] [] [] [] [] [] []]; vm_compute in H;
    try discriminate H; reflexivity.
Qed.

Lemma canonical_unsigned_shape c rest u :
  is_digit c = true → all_digits rest = true →
  (0 < u → Ascii.eqb c "0" = false) → (u = 0 → rest = "") → 0 ≤ u →
  canonical_unsigned (String c rest) = true.
Proof.
  intros Hc Hrest Hnz Hz Hu. unfold canonical_unsigned.
  destruct rest as [|c' rest']; [done |].
  rewrite Hc, Hrest, Hnz; [done |].
  destruct (decide (u = 0)) as [-> | ?]; [by specialize (Hz eq_refl) | lia].
Qed.

Lemma FormatInt_round_trip v :
  Int64.in_range v →
  canonical_decimal (FormatInt v) = true ∧ ParseInt (FormatInt v) = Some v.
Proof.
  intros Hv. unfold Int64.in_range, Int64.min_int, Int64.max_int in Hv.
  assert (Hbig : 2 ^ 63 < 10 ^ Z.of_nat 20) by (vm_compute; reflexivity).
  unfold FormatInt. case_decide as Hneg.
  - destruct (formatBits_shape 19 (- v) "") as (c & rest & Heq & Hc & Hrest & Hnz & _);
      [lia | done |].
    destruct (formatBits_parse 20 (- v) "") as (k & Hk & Hparse); [lia |].
    rewrite Heq in *. split.
    + cbn [canonical_decimal].
      rewrite (canonical_unsigned_shape c rest (- v)); [| done | done | done | lia | lia].
      cbn [String.eqb]. rewrite Hnz by lia. done.
    + change (ParseInt (String "-" (String c rest))) with
        (match parse_unsigned (String c rest) with
         | Some n => if decide (n ≤ 2 ^ 63)%Z then Some (- n)%Z else None
         | None => None
         end).
      cbn [parse_unsigned]. rewrite Hparse. cbn [parse_digits].
      rewrite Z.mul_0_l, Z.add_0_l. rewrite decide_True by lia.
      f_equal. lia.
  - destruct (formatBits_shape 19 v "") as (c & rest & Heq & Hc & Hrest & Hnz & Hz);
      [lia | done |].
    destruct (formatBits_parse 20 v "") as (k & Hk & Hparse); [lia |].
    rewrite Heq in *. split.
    + rewrite canonical_decimal_unsigned by done.
      apply (canonical_unsigned_shape c rest v); [done | done | done | done | lia].
    + rewrite ParseInt_unsigned by done.
      cbn [parse_unsigned]. rewrite Hparse. cbn [parse_digits].
      rewrite Z.mul_0_l, Z.add_0_l. rewrite decide_True by (unfold Int64.max_int; lia).
      done.
Qed.

End Strconv.

Lemma Rate_in_range r V : RateCounter.Rate r = Ok V → Int64.in_range V.
Proof.
  unfold RateCounter.Rate, atomic.LoadInt64.
  case_slice_get (RateCounter.bins r) (RateCounter.index r); simpl; [| done].
  intros [= <-]. apply wrap_in_range.
Qed.

Lemma Average_in_range m V : MovingAverage.Average m = Ok V → Int64.in_range V.
Proof.
  unfold MovingAverage.Average, MovingAverage.aggregate, atomic.LoadInt64.
  case_slice_get (MovingAverage.sums m) (MovingAverage.index m);
    simpl; [| done].
  case_slice_get (MovingAverage.counts m) (MovingAverage.index m);
    simpl; [| done].
  case_decide.
  - intros [= <-]. int64_range.
  - unfold int_quo. rewrite decide_False by done.
    intros [= <-]. apply wrap_in_range.
Qed.

(** C7. Whatever state a counter or an average is in, if [Rate] (or
    [Average]) returns [V] then [String] returns a canonical base-10 integer
    (digits only, after a minus sign when [V] is negative, with no leading
    zero) that [ParseInt] reads back as exactly [V]; it is never empty and
    never a bare sign.  Every [int64] value is attained as a [Rate] and as an
    [Average]. *)
Theorem string_round_trip :
  (∀ (r : RateCounter.t) (V : Z),
     RateCounter.Rate r = Ok V →
     ∃ s, RateCounter.String r = Ok s ∧
          strconv.canonical_decimal s = true ∧
          strconv.ParseInt s = Some V ∧
          s ≠ ""%string ∧ s ≠ "-"%string ∧ s ≠ "+"%string) ∧
  (∀ (m : MovingAverage.t) (V : Z),
     MovingAverage.Average m = Ok V →
     ∃ s, MovingAverage.String m = Ok s ∧
          strconv.canonical_decimal s = true ∧
          strconv.ParseInt s = Some V ∧
          s ≠ ""%string ∧ s ≠ "-"%string ∧ s ≠ "+"%string) ∧
  (∀ V : Z, Int64.in_range V →
     (∃ r, RateCounter.Add RateCounter.NewCounter.1 V = Ok r ∧
           RateCounter.Rate r = Ok V) ∧
     (∃ m, MovingAverage.Add MovingAverage.NewAverage.1 V = Ok m ∧
           MovingAverage.Average m = Ok V)).
Proof.
  assert (Hcanon : ∀ s, strconv.canonical_decimal s = true →
            s ≠ ""%string ∧ s ≠ "-"%string ∧ s ≠ "+"%string).
  { intros s Hs. repeat split; intros ->; discriminate Hs. }
  split; [| split].
  - intros r V HV. unfold RateCounter.String. rewrite HV. simpl.
    destruct (FormatInt_round_trip V (Rate_in_range _ _ HV)) as [Hc Hp].
    eexists. split; [done |]. split; [exact Hc |]. split; [exact Hp |].
    by apply Hcanon.
  - intros m V HV. unfold MovingAverage.String. rewrite HV. simpl.
    destruct (FormatInt_round_trip V (Average_in_range _ _ HV)) as [Hc Hp].
    eexists. split; [done |]. split; [exact Hc |]. split; [exact Hp |].
    by apply Hcanon.
  - intros V HV. split.
    + eexists. split; [reflexivity |].
      unfold RateCounter.Rate, Int64.add. simpl.
      rewrite !Z.add_0_l. rewrite (wrap_id V) by done.
      by rewrite (wrap_id V) by done.
    + eexists. split; [reflexivity |].
      unfold MovingAverage.Average, MovingAverage.aggregate, Int64.add. simpl.
      change (Int64.wrap (Int64.wrap (0 + 1) + 0)) with 1.
      rewrite Z.add_0_l, Z.add_0_r, (wrap_id V) by done.
      rewrite (wrap_id V) by done.
      unfold int_quo. rewrite decide_False by done.
      by rewrite Z.quot_1_r, wrap_id by done.
Qed.

(** The least [int64]. *)
Lemma string_round_trip_witness :
  ∃ r s,
    RateCounter.Add RateCounter.NewCounter.1 Int64.min_int = Ok r ∧
    RateCounter.Rate r = Ok Int64.min_int ∧
    RateCounter.String r = Ok s ∧
    s = "-9223372036854775808"%string ∧
    strconv.canonical_decimal s = true ∧
    strconv.ParseInt s = Some Int64.min_int.
Proof.
  destruct string_round_trip as (Hstr & _ & Hatt).
  destruct (Hatt Int64.min_int) as [(r & Hr & Hrate) _];
    [vm_compute; split; congruence |].
  destruct (Hstr r _ Hrate) as (s & Hs & Hc & Hp & _).
  exists r, s. repeat (split; [done |]). split; [| done].
  injection Hr as <-. vm_compute in Hs. by injection Hs as <-.
Defined.

(** ** Concurrent producers *)

Lemma sumZ_fmap_insert {A} (f : A → Z) (l : list A) k x y :
  l !! k = Some x →
  sumZ (f <$> <[k := y]> l) = sumZ (f <$> l) - f x + f y.
Proof.
  revert k. induction l as [|a l IH]; intros k Hk; [done |].
  destruct k as [|k].
  - simpl in Hk. injection Hk as ->.
    change (<[O := y]> (x :: l)) with (y :: l).
    rewrite !fmap_cons, !sumZ_cons. lia.
  - change (<[S k := y]> (a :: l)) with (a :: <[k := y]> l).
    rewrite !fmap_cons, !sumZ_cons, (IH k Hk). lia.
Qed.

Lemma pending_finished ps : Forall finished ps → pending ps = 0.
Proof.
  unfold pending. induction 1 as [|p ps Hp _ IH]; [done |].
  rewrite fmap_cons, sumZ_cons, IH, Hp. done.
Qed.

Lemma pending_producers n m v :
  pending (producers n m v) = Z.of_nat n * (Z.of_nat m * v).
Proof.
  unfold pending, producers.
  induction n as [|n IH]; [done |].
  rewrite replicate_S, fmap_cons, sumZ_cons, IH. cbn [todo].
  rewrite sumZ_replicate. lia.
Qed.

Lemma pool_inv_init r0 ps v :
  slice_get (RateCounter.bins r0) (RateCounter.index r0) = Ok v →
  Forall (λ p, cell p = None) ps →
  pool_inv r0 (v + pending ps) (Some (r0, ps)).
Proof.
  intros Hv Hps. exists r0, ps, v. repeat split; [| done].
  eapply Forall_impl; [exact Hps |]. intros p Hp. by left.
Qed.

(** A step keeps the invariant, never panics, and uses up effort. *)
Lemma pool_inv_step r0 total s s' :
  pool_inv r0 total s → sched_step s s' →
  pool_inv r0 total s' ∧
  ∃ r ps r' ps', s = Some (r, ps) ∧ s' = Some (r', ps') ∧
                 effort ps' < effort ps.
Proof.
  intros (r & ps & v & -> & Hidx & Hoth & Hcells & Hv & Htot) Hstep.
  inversion Hstep as [r1 ps1 k p r' p' Hk Hnf Hp | r1 ps1 k p e Hk Hnf Hp];
    subst.
  - pose proof (Forall_lookup_1 _ _ _ _ Hcells Hk) as Hcell.
    simpl in Hcell.
    unfold producer_step in Hp. unfold finished in Hnf.
    destruct (todo p) as [|x rest] eqn:Htodo; [done |].
    destruct (cell p) as [i|] eqn:Hc.
    + destruct Hcell as [? | Hcell]; [done |]. injection Hcell as ->.
      unfold atomic.AddInt64 in Hp. rewrite Hv in Hp. simpl in Hp.
      injection Hp as <- <-.
      apply slice_get_Ok in Hv as Hv'. destruct Hv' as [Hi0 Hlook].
      split.
      * eexists _, _, _. split; [done |]. simpl.
        split; [done |]. split; [done |].
        split; [apply Forall_insert; [done | by left] |].
        split.
        { apply slice_get_Ok. split; [done |].
          apply list_lookup_insert_eq. by eapply lookup_lt_Some. }
        rewrite <-Htot. unfold pending.
        rewrite (sumZ_fmap_insert _ _ _ _ _ Hk). rewrite Htodo. cbn [todo].
        int64_norm. f_equal. rewrite sumZ_cons. lia.
      * eexists _, _, _, _. split; [done |]. split; [done |].
        unfold effort. rewrite (sumZ_fmap_insert _ _ _ _ _ Hk).
        unfold effort_of. rewrite Htodo, Hc. cbn [todo cell length]. lia.
    + rewrite Hidx, Hv in Hp. simpl in Hp. injection Hp as <- <-.
      split.
      * exists r, (<[k := {| todo := todo p; cell := Some (RateCounter.index r0) |}]> ps), v.
        split; [by rewrite Htodo |].
        split; [done |]. split; [done |].
        split; [apply Forall_insert; [done | by right] |].
        split; [done |].
        rewrite <-Htot. unfold pending.
        rewrite (sumZ_fmap_insert _ _ _ _ _ Hk). simpl. f_equal. lia.
      * eexists _, _, _, _. split; [done |]. split; [done |].
        unfold effort. rewrite (sumZ_fmap_insert _ _ _ _ _ Hk).
        unfold effort_of. rewrite Htodo, Hc. cbn [todo cell length]. lia.
  - exfalso.
    pose proof (Forall_lookup_1 _ _ _ _ Hcells Hk) as Hcell.
    simpl in Hcell.
    unfold producer_step in Hp. unfold finished in Hnf.
    destruct (todo p) as [|x rest] eqn:Htodo; [done |].
    destruct (cell p) as [i|] eqn:Hc.
    + destruct Hcell as [? | Hcell]; [done |]. injection Hcell as ->.
      unfold atomic.AddInt64 in Hp. rewrite Hv in Hp. done.
    + rewrite Hidx, Hv in Hp. done.
Qed.

Lemma pool_inv_rtc r0 total s s' :
  pool_inv r0 total s → rtc sched_step s s' → pool_inv r0 total s'.
Proof.
  intros Hinv Hsteps. induction Hsteps as [|s1 s2 s3 Hstep _ IH]; [done |].
  apply IH. by eapply pool_inv_step.
Qed.

(** A producer that has not finished can always take its step. *)
Lemma pool_inv_progress r0 total r ps :
  pool_inv r0 total (Some (r, ps)) → ¬ Forall finished ps →
  ∃ s', sched_step (Some (r, ps)) s'.
Proof.
  intros Hinv Hnot.
  apply not_Forall_Exists in Hnot; [| intros p; unfold finished; apply _].
  apply Exists_exists in Hnot as (p & Hin & Hnf).
  apply list_elem_of_lookup in Hin as [k Hk].
  destruct (producer_step r p) as [[r' p']|e] eqn:Hp.
  - eexists. by eapply sched_ok.
  - eexists. by eapply sched_panic.
Qed.

Lemma effort_nonneg ps : 0 ≤ effort ps.
Proof.
  unfold effort. induction ps as [|p ps IH]; [done |].
  rewrite fmap_cons, sumZ_cons.
  unfold effort_of at 1. destruct (cell p); lia.
Qed.

(** Every execution can be run to completion. *)
Lemma pool_inv_completes r0 total r ps :
  pool_inv r0 total (Some (r, ps)) →
  ∃ s', rtc sched_step (Some (r, ps)) s' ∧ all_finished s'.
Proof.
  remember (Z.to_nat (effort ps)) as n eqn:Hn.
  revert r ps Hn. induction n as [n IH] using lt_wf_ind.
  intros r ps Hn Hinv.
  destruct (decide (Forall finished ps)) as [Hfin | Hnot].
  - exists (Some (r, ps)). split; [done |]. by exists r, ps.
  - destruct (pool_inv_progress _ _ _ _ Hinv Hnot) as [s1 Hstep].
    destruct (pool_inv_step _ _ _ _ Hinv Hstep)
      as (Hinv1 & r1 & ps1 & r2 & ps2 & Heq & -> & Hlt).
    injection Heq as <- <-.
    pose proof (effort_nonneg ps2).
    destruct (IH (Z.to_nat (effort ps2)) ltac:(lia) r2 ps2 eq_refl Hinv1)
      as (s' & Hsteps & Hfin).
    exists s'. split; [by eapply rtc_l | done].
Qed.

Lemma rc_new_active interval gran :
  let c := RateCounter.NewRateCounterWithGranularity interval gran in
  slice_get (RateCounter.bins c.1) (RateCounter.index c.1) = Ok 0 ∧
  RateCounter.others c.1 = 0.
Proof.
  destruct (decide (interval ≤ 0 ∨ gran ≤ 1)) as [Hdeg | Hwin]; cbv zeta.
  - by rewrite rc_new_degenerate.
  - rewrite rc_new_windowed by lia. split; [| done].
    apply (slice_get_nat _ O). apply lookup_replicate_2. lia.
Qed.

(** Whatever the schedule, no addition is lost: when all producers have
    finished, the counter has gained the [int64] sum of all they added. *)
Lemma pool_conservation r0 v0 ps0 s :
  slice_get (RateCounter.bins r0) (RateCounter.index r0) = Ok v0 →
  Forall (λ p, cell p = None) ps0 →
  rtc sched_step (Some (r0, ps0)) s →
  s ≠ None ∧
  (all_finished s →
   ∃ r ps, s = Some (r, ps) ∧
           RateCounter.Rate r =
           Ok (Int64.wrap (RateCounter.others r0 + v0 + pending ps0))) ∧
  (∃ s', rtc sched_step s s' ∧ all_finished s').
Proof.
  intros Hv0 Hcells Hsteps.
  pose proof (pool_inv_rtc _ _ _ _ (pool_inv_init r0 ps0 v0 Hv0 Hcells) Hsteps)
    as Hinv.
  pose proof Hinv as (r & ps & v & -> & Hidx & Hoth & Hc & Hv & Htot).
  split; [done |]. split.
  - intros (r' & ps' & Heq & Hfin). injection Heq as <- <-.
    exists r, ps. split; [done |].
    unfold RateCounter.Rate, atomic.LoadInt64. rewrite Hidx, Hv. simpl.
    rewrite (pending_finished _ Hfin), Z.add_0_r in Htot.
    rewrite Hoth. unfold Int64.add.
    rewrite <-(wrap_add_r _ v), Htot, wrap_add_r. do 2 f_equal. lia.
  - by eapply pool_inv_completes.
Qed.

(** C8. Ten producers run concurrently on one counter, each calling
    [Add(1)] a thousand times, and no rotation takes place.  However their
    steps are interleaved — the evaluation of [&r.bins[r.index]] and the
    atomic addition are separate steps — the program never panics, every
    execution can be run to completion, and once all producers have finished
    [Rate] returns exactly [10000]. *)
Theorem concurrent_adds_are_conserved
    (interval gran : Z) (s : option pool) :
  rtc sched_step
    (Some ((RateCounter.NewRateCounterWithGranularity interval gran).1,
           producers 10 1000 1)) s →
  s ≠ None ∧
  (all_finished s →
   ∃ r ps, s = Some (r, ps) ∧ RateCounter.Rate r = Ok 10000) ∧
  (∃ s', rtc sched_step s s' ∧ all_finished s').
Proof.
  intros Hsteps.
  destruct (rc_new_active interval gran) as [Hv0 Hoth].
  destruct (pool_conservation _ 0 (producers 10 1000 1) s Hv0)
    as (Hs & Hfin & Hcompl); [| exact Hsteps |].
  { unfold producers. apply Forall_replicate. done. }
  split; [exact Hs |]. split; [| exact Hcompl].
  intros Hall. destruct (Hfin Hall) as (r & ps & -> & Hrate).
  exists r, ps. split; [done |].
  rewrite Hrate, Hoth, pending_producers. done.
Qed.

(** A window of one hour: some execution runs to completion, and ends with
    a rate of 10000. *)
Lemma concurrent_adds_are_conserved_witness :
  ∃ s',
    rtc sched_step
      (Some ((RateCounter.NewRateCounterWithGranularity
                3600000000000 32).1, producers 10 1000 1)) s' ∧
    all_finished s' ∧
    ∃ r ps, s' = Some (r, ps) ∧ RateCounter.Rate r = Ok 10000.
Proof.
  destruct (concurrent_adds_are_conserved 3600000000000 32
              (Some ((RateCounter.NewRateCounterWithGranularity
                        3600000000000 32).1, producers 10 1000 1)))
    as (_ & _ & s' & Hsteps & Hfin); [apply rtc_refl |].
  exists s'. split; [exact Hsteps |]. split; [exact Hfin |].
  destruct (concurrent_adds_are_conserved 3600000000000 32 s' Hsteps)
    as (_ & Hrate & _).
  exact (Hrate Hfin).
Defined.

(** ** The embedding on concrete inputs *)

Example FormatInt_zero : strconv.FormatInt 0 = "0"%string.
Proof. reflexivity. Qed.

Example FormatInt_negative : strconv.FormatInt (-42) = "-42"%string.
Proof. reflexivity. Qed.

Example FormatInt_max :
  strconv.FormatInt Int64.max_int = "9223372036854775807"%string.
Proof. reflexivity. Qed.

Example ParseInt_rejects :
  strconv.ParseInt "" = None ∧ strconv.ParseInt "-" = None ∧
  strconv.ParseInt "1e3" = None ∧
  strconv.ParseInt "9223372036854775808" = None.
Proof. repeat split; reflexivity. Qed.

(** Three buckets: the delta 4 is added, a tick moves the index to cell 1
    and folds cell 0 into the carry. *)
Example rotate_once :
  RateCounter.rotate 3
    {| RateCounter.others := 0; RateCounter.bins := [4; 0; 0];
       RateCounter.index := 0 |} =
  Ok {| RateCounter.others := 4; RateCounter.bins := [4; 0; 0];
        RateCounter.index := 1 |}.
Proof. reflexivity. Qed.

(** An addition that overflows wraps around. *)
Example Add_wraps :
  RateCounter.Add
    {| RateCounter.others := 0; RateCounter.bins := [Int64.max_int];
       RateCounter.index := 0 |} 1 =
  Ok {| RateCounter.others := 0; RateCounter.bins := [Int64.min_int];
        RateCounter.index := 0 |}.
Proof. reflexivity. Qed.

(** A ticker period of zero: the goroutine panics when it creates the
    ticker. *)
Example elapse_zero_period :
  elapse RateCounter.rotate 10
    (start (RateCounter.NewRateCounterWithGranularity 3 4)) =
  Panic NonPositiveTickerInterval.
Proof. reflexivity. Qed.

(** * Further properties of the counters *)

Lemma sumZ_insert (l : list Z) k x y :
  l !! k = Some x → sumZ (<[k := y]> l) = sumZ l - x + y.
Proof.
  intros Hk. pose proof (sumZ_fmap_insert id l k x y Hk) as H.
  by rewrite !list_fmap_id in H.
Qed.

Lemma rc_wf_get r : rc_wf r → ∃ v,
  slice_get (RateCounter.bins r) (RateCounter.index r) = Ok v.
Proof.
  intros Hwf. unfold rc_wf in Hwf.
  destruct (lookup_lt_is_Some_2 (RateCounter.bins r)
              (Z.to_nat (RateCounter.index r))) as [v Hv]; [lia |].
  exists v. apply slice_get_Ok. split; [lia | done].
Qed.

(** What one rotation step does to a well-formed counter. *)
Lemma rc_rotate_wf gran r :
  2 ≤ gran ≤ Int64.max_int →
  rc_wf r → Z.of_nat (length (RateCounter.bins r)) = gran →
  ∃ old b,
    slice_get (RateCounter.bins r) ((RateCounter.index r + 1) mod gran)
      = Ok old ∧
    slice_get (RateCounter.bins r) (RateCounter.index r) = Ok b ∧
    RateCounter.rotate gran r =
    Ok {| RateCounter.others :=
            Int64.add (RateCounter.others r) (Int64.sub b old);
          RateCounter.bins :=
            <[Z.to_nat ((RateCounter.index r + 1) mod gran) := 0]>
              (RateCounter.bins r);
          RateCounter.index := (RateCounter.index r + 1) mod gran |}.
Proof.
  intros Hg Hwf Hlen. unfold rc_wf in Hwf. rewrite Hlen in Hwf.
  destruct (next_index gran _ Hg Hwf) as (Hrem & Hbound & Hne).
  destruct (rc_wf_get r) as [b Hb]; [unfold rc_wf; lia |].
  destruct (lookup_lt_is_Some_2 (RateCounter.bins r)
              (Z.to_nat ((RateCounter.index r + 1) mod gran)))
    as [old Hold]; [lia |].
  assert (Hold' : slice_get (RateCounter.bins r)
                    ((RateCounter.index r + 1) mod gran) = Ok old).
  { apply slice_get_Ok. split; [lia | done]. }
  exists old, b. split; [exact Hold' |]. split; [exact Hb |].
  unfold RateCounter.rotate, atomic.SwapInt64.
  rewrite Hrem. simpl. rewrite Hold'. simpl.
  rewrite slice_get_insert_ne by lia. rewrite Hb. done.
Qed.

(** X1. A rotation step on any well-formed counter with [gran ≥ 2] buckets
    does not panic.  It moves the active index to [(index + 1) mod gran],
    clears that bucket and leaves the others alone, keeps the counter
    well-formed, and lowers [Rate] by exactly what the cleared bucket held
    (in [int64] arithmetic). *)
Theorem rotate_evicts_next_bucket (gran : Z) (r : RateCounter.t) :
  2 ≤ gran ≤ Int64.max_int →
  rc_wf r → Z.of_nat (length (RateCounter.bins r)) = gran →
  ∃ r' old rate,
    slice_get (RateCounter.bins r) ((RateCounter.index r + 1) mod gran)
      = Ok old ∧
    RateCounter.Rate r = Ok rate ∧
    RateCounter.rotate gran r = Ok r' ∧
    rc_wf r' ∧
    length (RateCounter.bins r') = length (RateCounter.bins r) ∧
    RateCounter.index r' = (RateCounter.index r + 1) mod gran ∧
    slice_get (RateCounter.bins r') (RateCounter.index r') = Ok 0 ∧
    (∀ j, j ≠ Z.to_nat (RateCounter.index r') →
          RateCounter.bins r' !! j = RateCounter.bins r !! j) ∧
    RateCounter.Rate r' = Ok (Int64.sub rate old).
Proof.
  intros Hg Hwf Hlen.
  destruct (rc_rotate_wf gran r Hg Hwf Hlen) as (old & b & Hold & Hb & Hrot).
  unfold rc_wf in Hwf. rewrite Hlen in Hwf.
  destruct (next_index gran _ Hg Hwf) as (_ & Hbound & Hne).
  eexists _, old, _. split; [exact Hold |].
  split; [unfold RateCounter.Rate, atomic.LoadInt64; by rewrite Hb |].
  split; [exact Hrot |]. simpl.
  assert (Hzero : slice_get
            (<[Z.to_nat ((RateCounter.index r + 1) mod gran) := 0]>
               (RateCounter.bins r))
            ((RateCounter.index r + 1) mod gran) = Ok 0).
  { apply slice_get_Ok. split; [lia |].
    apply list_lookup_insert_eq. lia. }
  split; [unfold rc_wf; simpl; rewrite length_insert; lia |].
  split; [by rewrite length_insert |]. split; [done |].
  split; [exact Hzero |].
  split; [intros j Hj; by rewrite list_lookup_insert_ne |].
  unfold RateCounter.Rate, atomic.LoadInt64. simpl. rewrite Hzero. simpl.
  int64_norm. do 2 f_equal. lia.
Qed.

Lemma rotate_evicts_next_bucket_witness :
  2 ≤ 3 ≤ Int64.max_int ∧
  RateCounter.Rate
    {| RateCounter.others := 9; RateCounter.bins := [4; 5; 6];
       RateCounter.index := 2 |} = Ok 15 ∧
  ∃ r',
    RateCounter.rotate 3
      {| RateCounter.others := 9; RateCounter.bins := [4; 5; 6];
         RateCounter.index := 2 |} = Ok r' ∧
    RateCounter.index r' = 0 ∧
    RateCounter.Rate r' = Ok 11.
Proof.
  split; [done |]. split; [reflexivity |].
  destruct (rotate_evicts_next_bucket 3
              {| RateCounter.others := 9; RateCounter.bins := [4; 5; 6];
                 RateCounter.index := 2 |})
    as (r' & old & rate & Hold & Hrate & Hrot & _ & _ & Hidx & _ & _ & Hrate');
    [done | unfold rc_wf; simpl; lia | done |].
  exists r'. split; [exact Hrot |]. split; [exact Hidx |].
  injection Hold as <-. injection Hrate as <-. exact Hrate'.
Defined.

Lemma rc_add_carry r v :
  rc_wf r → carry_ok r →
  ∃ r', RateCounter.Add r v = Ok r' ∧ rc_wf r' ∧ carry_ok r' ∧
        length (RateCounter.bins r') = length (RateCounter.bins r).
Proof.
  intros Hwf (b & Hb & Hcarry).
  unfold RateCounter.Add, atomic.AddInt64. rewrite Hb. simpl.
  apply slice_get_Ok in Hb as Hb'. destruct Hb' as [Hidx Hlook].
  apply lookup_lt_Some in Hlook as Hlt.
  eexists. split; [done |]. unfold rc_wf, carry_ok in *. simpl.
  rewrite length_insert. split; [done |]. split; [| done].
  exists (Int64.add b v). split.
  - apply slice_get_Ok. split; [done |]. by apply list_lookup_insert_eq.
  - rewrite Hcarry, (sumZ_insert _ _ _ _ Hlook). f_equal. lia.
Qed.

Lemma rc_rotate_carry gran r :
  2 ≤ gran ≤ Int64.max_int →
  rc_wf r → Z.of_nat (length (RateCounter.bins r)) = gran → carry_ok r →
  ∃ r', RateCounter.rotate gran r = Ok r' ∧ rc_wf r' ∧ carry_ok r' ∧
        length (RateCounter.bins r') = length (RateCounter.bins r).
Proof.
  intros Hg Hwf Hlen (v & Hv & Hcarry).
  destruct (rc_rotate_wf gran r Hg Hwf Hlen) as (old & b & Hold & Hb & Hrot).
  rewrite Hv in Hb. injection Hb as <-.
  unfold rc_wf in Hwf. rewrite Hlen in Hwf.
  destruct (next_index gran _ Hg Hwf) as (_ & Hbound & Hne).
  apply slice_get_Ok in Hold as Hold'. destruct Hold' as [_ Hlook].
  eexists. split; [exact Hrot |]. unfold rc_wf, carry_ok. simpl.
  rewrite length_insert. split; [lia |]. split; [| done].
  exists 0. split.
  - apply slice_get_Ok. split; [lia |]. apply list_lookup_insert_eq. lia.
  - rewrite Hcarry, (sumZ_insert _ _ _ _ Hlook). int64_norm. f_equal. lia.
Qed.

(** The carry stays the sum of the inactive buckets along a run, provided
    the goroutine (if there is one) rotates over all the buckets. *)
Lemma rc_run_carry task r tr :
  rc_wf r → carry_ok r →
  (∀ t, task = Some t →
        2 ≤ rot_gran t ≤ Int64.max_int ∧
        Z.of_nat (length (RateCounter.bins r)) = rot_gran t) →
  ∃ r', run RateCounter.Add RateCounter.rotate task r tr = Ok r' ∧
        rc_wf r' ∧ carry_ok r' ∧
        length (RateCounter.bins r') = length (RateCounter.bins r).
Proof.
  revert r. induction tr as [|e tr IH]; intros r Hwf Hcarry Htask.
  - exists r. split; [done |]. split; [done |]. split; done.
  - assert (Hstep : ∃ r1, exec RateCounter.Add RateCounter.rotate task r e
                          = Ok r1 ∧ rc_wf r1 ∧ carry_ok r1 ∧
                          length (RateCounter.bins r1)
                          = length (RateCounter.bins r)).
    { destruct e as [v|]; simpl.
      - by apply rc_add_carry.
      - destruct task as [t|];
          [| exists r; split; [done |]; split; [done |]; split; done].
        destruct (Htask t eq_refl) as [Hg Hlen].
        by apply rc_rotate_carry. }
    destruct Hstep as (r1 & Hexec & Hwf1 & Hcarry1 & Hlen1).
    destruct (IH r1 Hwf1 Hcarry1) as (r' & Hrun & Hwf' & Hcarry' & Hlen').
    { intros t Ht. rewrite Hlen1. by apply Htask. }
    exists r'. cbn [run]. rewrite Hexec. simpl.
    split; [exact Hrun |]. split; [done |]. split; [done |]. congruence.
Qed.

(** X2. Along every sequential run of [Add] calls and rotation steps, on a
    counter constructed in either mode: no call panics, the number of
    buckets never changes, the active index stays inside the ring, the
    carry [others] is the [int64] sum of the buckets other than the active
    one, and so [Rate] is the [int64] sum of all the buckets. *)
Theorem carry_is_sum_of_inactive_buckets
    (interval gran : Z) (tr : list event) :
  gran ≤ Int64.max_int →
  ∃ r v,
    run RateCounter.Add RateCounter.rotate
      (RateCounter.NewRateCounterWithGranularity interval gran).2
      (RateCounter.NewRateCounterWithGranularity interval gran).1 tr = Ok r ∧
    length (RateCounter.bins r) =
      length (RateCounter.bins
                (RateCounter.NewRateCounterWithGranularity interval gran).1) ∧
    0 ≤ RateCounter.index r < Z.of_nat (length (RateCounter.bins r)) ∧
    slice_get (RateCounter.bins r) (RateCounter.index r) = Ok v ∧
    RateCounter.others r = Int64.wrap (sumZ (RateCounter.bins r) - v) ∧
    RateCounter.Rate r = Ok (Int64.wrap (sumZ (RateCounter.bins r))).
Proof.
  intros Hmax.
  destruct (rc_run_carry
              (RateCounter.NewRateCounterWithGranularity interval gran).2
              (RateCounter.NewRateCounterWithGranularity interval gran).1 tr)
    as (r & Hrun & Hwf & (v & Hv & Hcarry) & Hlen).
  - destruct (decide (interval ≤ 0 ∨ gran ≤ 1)) as [Hdeg | Hwin].
    + rewrite rc_new_degenerate by done. unfold rc_wf. simpl. lia.
    + rewrite rc_new_windowed by lia. unfold rc_wf. simpl.
      rewrite length_replicate. lia.
  - destruct (rc_new_active interval gran) as [Hv0 Hoth].
    exists 0. split; [exact Hv0 |]. rewrite Hoth.
    destruct (decide (interval ≤ 0 ∨ gran ≤ 1)) as [Hdeg | Hwin].
    + by rewrite rc_new_degenerate.
    + rewrite rc_new_windowed by lia. simpl.
      rewrite sumZ_replicate. by rewrite Z.mul_0_r.
  - intros t Ht.
    destruct (decide (interval ≤ 0 ∨ gran ≤ 1)) as [Hdeg | Hwin].
    + by rewrite rc_new_degenerate in Ht.
    + rewrite rc_new_windowed in * by lia. simpl in *.
      injection Ht as <-. simpl. rewrite length_replicate. lia.
  - exists r, v. split; [exact Hrun |]. split; [exact Hlen |].
    split; [exact Hwf |]. split; [exact Hv |]. split; [exact Hcarry |].
    unfold RateCounter.Rate, atomic.LoadInt64. rewrite Hv. simpl.
    rewrite Hcarry. int64_norm. do 2 f_equal. lia.
Qed.

Lemma carry_is_sum_of_inactive_buckets_witness :
  5 ≤ Int64.max_int ∧
  ∃ r,
    run RateCounter.Add RateCounter.rotate
      (RateCounter.NewRateCounterWithGranularity 1000 5).2
      (RateCounter.NewRateCounterWithGranularity 1000 5).1
      [EvAdd 3; EvTick; EvAdd (-8); EvTick; EvTick; EvAdd 2] = Ok r ∧
    length (RateCounter.bins r) = 5%nat ∧
    RateCounter.Rate r = Ok (Int64.wrap (sumZ (RateCounter.bins r))).
Proof.
  split; [done |].
  destruct (carry_is_sum_of_inactive_buckets 1000 5
              [EvAdd 3; EvTick; EvAdd (-8); EvTick; EvTick; EvAdd 2])
    as (r & v & Hrun & Hlen & _ & _ & _ & Hrate); [done |].
  exists r. split; [exact Hrun |]. split; [exact Hlen | exact Hrate].
Defined.

(** ** Additions in any order *)

Section Reorder.

Context {T : Type}.
Variable add : T → Z → result T.
Variable rotate : Z → T → result T.
Hypothesis add_comm : ∀ r x y,
  (add r x ≫= λ r1, add r1 y) = (add r y ≫= λ r1, add r1 x).

Lemma run_adds_Permutation task r vs vs' :
  vs ≡ₚ vs' →
  run add rotate task r (EvAdd <$> vs) =
  run add rotate task r (EvAdd <$> vs').
Proof.
  intros Hperm. revert r.
  induction Hperm as [|x l l' _ IH|x y l|l l' l'' _ IH1 _ IH2]; intros r.
  - done.
  - rewrite !fmap_cons. cbn [run exec].
    destruct (add r x) as [r1|p]; simpl; [apply IH | done].
  - rewrite !fmap_cons. cbn [run exec].
    pose proof (add_comm r y x) as Hc.
    destruct (add r y) as [r1|p]; destruct (add r x) as [r2|q]; simpl in *.
    + destruct (add r1 x) as [r3|p3]; destruct (add r2 y) as [r4|p4];
        simpl; congruence.
    + destruct (add r1 x) as [r3|p3]; simpl; congruence.
    + destruct (add r2 y) as [r4|p4]; simpl; congruence.
    + congruence.
  - by rewrite IH1.
Qed.

End Reorder.

Lemma rc_add_comm r x y :
  (RateCounter.Add r x ≫= λ r1, RateCounter.Add r1 y) =
  (RateCounter.Add r y ≫= λ r1, RateCounter.Add r1 x).
Proof.
  unfold RateCounter.Add, atomic.AddInt64.
  case_slice_get (RateCounter.bins r) (RateCounter.index r); simpl; [| done].
  apply slice_get_Ok in E as [Hidx Hlook].
  apply lookup_lt_Some in Hlook as Hlt.
  rewrite !(proj2 (slice_get_Ok _ _ _)
              (conj Hidx (list_lookup_insert_eq _ _ _ Hlt))). simpl.
  rewrite !list_insert_insert_eq. int64_norm.
  do 3 f_equal. f_equal. lia.
Qed.

Lemma ma_add_comm m x y :
  (MovingAverage.Add m x ≫= λ m1, MovingAverage.Add m1 y) =
  (MovingAverage.Add m y ≫= λ m1, MovingAverage.Add m1 x).
Proof.
  unfold MovingAverage.Add, atomic.AddInt64.
  case_slice_get (MovingAverage.sums m) (MovingAverage.index m);
    simpl; [| done].
  case_slice_get (MovingAverage.counts m) (MovingAverage.index m);
    simpl; [| done].
  apply slice_get_Ok in E as [Hidx Hs]. apply slice_get_Ok in E0 as [_ Hn].
  apply lookup_lt_Some in Hs as Hls. apply lookup_lt_Some in Hn as Hln.
  rewrite !(proj2 (slice_get_Ok _ _ _)
              (conj Hidx (list_lookup_insert_eq _ _ _ Hls))). simpl.
  rewrite !(proj2 (slice_get_Ok _ _ _)
              (conj Hidx (list_lookup_insert_eq _ _ _ Hln))). simpl.
  rewrite !list_insert_insert_eq. int64_norm.
  do 2 f_equal. f_equal. f_equal. lia.
Qed.

Lemma rc_run_adds_rate task r vs rate :
  RateCounter.Rate r = Ok rate →
  ∃ r', run RateCounter.Add RateCounter.rotate task r (EvAdd <$> vs) = Ok r' ∧
        RateCounter.Rate r' = Ok (Int64.wrap (rate + sumZ vs)).
Proof.
  revert r rate. induction vs as [|v vs IH]; intros r rate Hrate.
  - exists r. split; [done |]. rewrite Hrate. f_equal.
    rewrite Z.add_0_r. symmetry. apply wrap_id. by eapply Rate_in_range.
  - unfold RateCounter.Rate, atomic.LoadInt64 in Hrate.
    destruct (slice_get (RateCounter.bins r) (RateCounter.index r))
      as [b|] eqn:Hb; [| done]. simpl in Hrate. injection Hrate as <-.
    apply slice_get_Ok in Hb as Hb'. destruct Hb' as [Hidx Hlook].
    apply lookup_lt_Some in Hlook as Hlt.
    rewrite fmap_cons. cbn [run exec].
    assert (Hadd : RateCounter.Add r v =
      Ok {| RateCounter.others := RateCounter.others r;
            RateCounter.bins :=
              <[Z.to_nat (RateCounter.index r) := Int64.add b v]>
                (RateCounter.bins r);
            RateCounter.index := RateCounter.index r |}).
    { unfold RateCounter.Add, atomic.AddInt64. by rewrite Hb. }
    rewrite Hadd. unfold mbind at 1, result_bind at 1.
    destruct (IH {| RateCounter.others := RateCounter.others r;
                    RateCounter.bins :=
                      <[Z.to_nat (RateCounter.index r) := Int64.add b v]>
                        (RateCounter.bins r);
                    RateCounter.index := RateCounter.index r |}
                (Int64.add (RateCounter.others r) (Int64.add b v)))
      as (r' & Hrun & Hrate').
    + unfold RateCounter.Rate, atomic.LoadInt64. simpl.
      rewrite (proj2 (slice_get_Ok _ _ _)
                 (conj Hidx (list_lookup_insert_eq _ _ _ Hlt))). done.
    + exists r'. split; [exact Hrun |]. rewrite Hrate'. f_equal.
      rewrite sumZ_cons. int64_norm. f_equal. lia.
Qed.

(** X3. The outcome of a sequence of [Add] calls does not depend on their
    order: two sequences that are permutations of each other leave a counter
    (or an average) in the same state, whatever state it started from, or
    panic alike.  On a counter whose [Rate] was [rate], the calls succeed
    and [Rate] becomes the [int64] sum of [rate] and all the values. *)
Theorem adds_in_any_order
    (task : option Rotation) (r : RateCounter.t) (m : MovingAverage.t)
    (vs vs' : list Z) :
  vs ≡ₚ vs' →
  run RateCounter.Add RateCounter.rotate task r (EvAdd <$> vs) =
  run RateCounter.Add RateCounter.rotate task r (EvAdd <$> vs') ∧
  run MovingAverage.Add MovingAverage.rotate task m (EvAdd <$> vs) =
  run MovingAverage.Add MovingAverage.rotate task m (EvAdd <$> vs') ∧
  ∀ rate, RateCounter.Rate r = Ok rate →
    ∃ r', run RateCounter.Add RateCounter.rotate task r (EvAdd <$> vs')
          = Ok r' ∧
          RateCounter.Rate r' = Ok (Int64.wrap (rate + sumZ vs)).
Proof.
  intros Hperm.
  split; [by apply run_adds_Permutation; [apply rc_add_comm |] |].
  split; [by apply run_adds_Permutation; [apply ma_add_comm |] |].
  intros rate Hrate.
  rewrite <-(run_adds_Permutation _ _ rc_add_comm task r vs vs' Hperm).
  by apply rc_run_adds_rate.
Qed.

Lemma adds_in_any_order_witness :
  [4; -6; 9] ≡ₚ [9; 4; -6] ∧
  run RateCounter.Add RateCounter.rotate None
    {| RateCounter.others := 10; RateCounter.bins := [0; 5];
       RateCounter.index := 1 |} (EvAdd <$> [4; -6; 9]) =
  run RateCounter.Add RateCounter.rotate None
    {| RateCounter.others := 10; RateCounter.bins := [0; 5];
       RateCounter.index := 1 |} (EvAdd <$> [9; 4; -6]) ∧
  ∃ r', run RateCounter.Add RateCounter.rotate None
          {| RateCounter.others := 10; RateCounter.bins := [0; 5];
             RateCounter.index := 1 |} (EvAdd <$> [9; 4; -6]) = Ok r' ∧
        RateCounter.Rate r' = Ok 22.
Proof.
  assert (Hperm : [4; -6; 9] ≡ₚ [9; 4; -6]).
  { eapply perm_trans; [apply perm_skip, perm_swap | apply perm_swap]. }
  split; [exact Hperm |].
  destruct (adds_in_any_order None
              {| RateCounter.others := 10; RateCounter.bins := [0; 5];
                 RateCounter.index := 1 |}
              {| MovingAverage.otherSums := 0; MovingAverage.otherCounts := 0;
                 MovingAverage.sums := [0]; MovingAverage.counts := [0];
                 MovingAverage.index := 0 |}
              [4; -6; 9] [9; 4; -6] Hperm) as (Heq & _ & Hrate).
  split; [exact Heq |]. apply (Hrate 15). reflexivity.
Defined.

(** ** How long a value stays in the window *)

Lemma recent_add_then_ticks g v n :
  recent g (EvAdd v :: replicate n EvTick) =
  if decide (n < g)%nat then [v] else [].
Proof.
  cbn [recent]. rewrite ticks_replicate_tick, recent_replicate_tick. done.
Qed.

Lemma rc_add_then_ticks interval gran v n :
  0 < interval → 2 ≤ gran ≤ Int64.max_int → Int64.in_range v →
  ∃ r,
    run RateCounter.Add RateCounter.rotate
      (RateCounter.NewRateCounterWithGranularity interval gran).2
      (RateCounter.NewRateCounterWithGranularity interval gran).1
      (EvAdd v :: replicate n EvTick) = Ok r ∧
    RateCounter.Rate r = Ok (if decide (n < Z.to_nat gran)%nat then v else 0).
Proof.
  intros Hi Hg Hv.
  destruct (rc_run_windowed interval gran (EvAdd v :: replicate n EvTick))
    as (r & Hr & Hinv); [lia | lia |].
  exists r. split; [exact Hr |].
  rewrite (rc_rate_inv _ _ _ Hinv), recent_add_then_ticks.
  case_decide; [| done]. unfold sumZ. simpl.
  by rewrite Z.add_0_r, wrap_id.
Qed.

Lemma rc_add_then_elapse interval gran v d :
  0 < interval → 2 ≤ gran ≤ Int64.max_int → Int64.in_range v →
  gran ≤ interval → 0 ≤ d →
  ∃ r1 s,
    RateCounter.Add
      (RateCounter.NewRateCounterWithGranularity interval gran).1 v = Ok r1 ∧
    elapse RateCounter.rotate d
      (start (r1, (RateCounter.NewRateCounterWithGranularity
                     interval gran).2)) = Ok s ∧
    RateCounter.Rate (inst s) =
    Ok (if decide (d < gran * (interval ÷ gran)) then v else 0).
Proof.
  intros Hi Hg Hv Hgi Hd.
  assert (Hp : 0 < interval ÷ gran) by (apply Z.quot_str_pos; lia).
  destruct (rc_add_then_ticks interval gran v
              (Z.to_nat (d / (interval ÷ gran))) Hi Hg Hv) as (r & Hr & Hrate).
  rewrite rc_new_windowed in * by lia. cbn [fst snd] in *.
  cbn [run exec] in Hr.
  destruct (RateCounter.Add _ v) as [r1|] eqn:Hadd; [| done].
  unfold mbind at 1, result_bind at 1 in Hr.
  exists r1. rewrite elapse_windowed by done. rewrite Hr. simpl.
  eexists. split; [done |]. split; [done |]. cbn [inst]. rewrite Hrate.
  f_equal. pose proof (Z.div_pos d (interval ÷ gran) Hd Hp).
  destruct (decide (d < gran * (interval ÷ gran))) as [Hlt | Hge].
  - rewrite decide_True; [done |].
    apply Z2Nat.inj_lt; [lia | lia |].
    apply Z.div_lt_upper_bound; lia.
  - rewrite decide_False; [done |].
    intros Hlt. apply Z2Nat.inj_lt in Hlt; [| lia | lia].
    apply Hge. pose proof (Z.mul_div_le d (interval ÷ gran) Hp).
    pose proof (Z.mod_pos_bound d (interval ÷ gran) Hp).
    pose proof (Z.div_mod d (interval ÷ gran)). nia.
Qed.

(** X4. On a windowed counter ([interval > 0], [gran ≥ 2]) a value [v]
    added once is counted through the next [gran - 1] rotation steps and is
    gone at the [gran]-th.  In time, with a ticker period [interval / gran]
    of at least one nanosecond: the value is counted until
    [gran * (interval / gran)] nanoseconds have passed since construction,
    which is the interval rounded down to a multiple of [gran]. *)
Theorem value_stays_for_the_window
    (interval gran v : Z) (n : nat) (d : Z) :
  0 < interval → 2 ≤ gran ≤ Int64.max_int → Int64.in_range v →
  (∃ r,
     run RateCounter.Add RateCounter.rotate
       (RateCounter.NewRateCounterWithGranularity interval gran).2
       (RateCounter.NewRateCounterWithGranularity interval gran).1
       (EvAdd v :: replicate n EvTick) = Ok r ∧
     RateCounter.Rate r =
     Ok (if decide (n < Z.to_nat gran)%nat then v else 0)) ∧
  (gran ≤ interval → 0 ≤ d →
   ∃ r1 s,
     RateCounter.Add
       (RateCounter.NewRateCounterWithGranularity interval gran).1 v
     = Ok r1 ∧
     elapse RateCounter.rotate d
       (start (r1, (RateCounter.NewRateCounterWithGranularity
                      interval gran).2)) = Ok s ∧
     RateCounter.Rate (inst s) =
     Ok (if decide (d < gran * (interval ÷ gran)) then v else 0)).
Proof.
  intros Hi Hg Hv. split.
  - by apply rc_add_then_ticks.
  - intros Hgi Hd. by apply rc_add_then_elapse.
Qed.

(** An interval of 63ns in 32 buckets: the period is 1ns, so a value is
    gone after 32ns, about half the interval. *)
Lemma value_stays_for_the_window_witness :
  0 < 63 ∧ 2 ≤ 32 ≤ Int64.max_int ∧ Int64.in_range 7 ∧
  (∃ r,
     run RateCounter.Add RateCounter.rotate
       (RateCounter.NewRateCounterWithGranularity 63 32).2
       (RateCounter.NewRateCounterWithGranularity 63 32).1
       (EvAdd 7 :: replicate 31 EvTick) = Ok r ∧
     RateCounter.Rate r = Ok 7) ∧
  (∃ r1 s,
     RateCounter.Add
       (RateCounter.NewRateCounterWithGranularity 63 32).1 7 = Ok r1 ∧
     elapse RateCounter.rotate 32
       (start (r1, (RateCounter.NewRateCounterWithGranularity 63 32).2))
     = Ok s ∧
     RateCounter.Rate (inst s) = Ok 0).
Proof.
  assert (Hr : Int64.in_range 7) by (vm_compute; split; congruence).
  split; [done |]. split; [done |]. split; [exact Hr |].
  destruct (value_stays_for_the_window 63 32 7 31 32) as [Hticks Htime];
    [done | done | exact Hr |].
  split; [exact Hticks |]. apply Htime; done.
Defined.

(** X5. On a windowed average ([interval > 0], [gran ≥ 2]), after any
    sequential run of [Add] calls and rotation steps, [Average] is the
    quotient, truncated toward zero, of the sum of the samples still in the
    window (those that fewer than [gran] ticks follow) by their number, and
    [0] when the window is empty; the sum and the number are taken to fit
    [int64]. *)
Theorem average_over_the_window (interval gran : Z) (tr : list event) :
  0 < interval → 2 ≤ gran ≤ Int64.max_int →
  Int64.in_range (sumZ (recent (Z.to_nat gran) tr)) →
  Z.of_nat (length (recent (Z.to_nat gran) tr)) ≤ Int64.max_int →
  ∃ m,
    run MovingAverage.Add MovingAverage.rotate
      (MovingAverage.NewMovingAverageWithGranularity interval gran).2
      (MovingAverage.NewMovingAverageWithGranularity interval gran).1 tr
      = Ok m ∧
    MovingAverage.Average m =
    Ok (if decide (recent (Z.to_nat gran) tr = []) then 0
        else sumZ (recent (Z.to_nat gran) tr)
             ÷ Z.of_nat (length (recent (Z.to_nat gran) tr))).
Proof.
  intros Hi Hg Hsum Hlen.
  destruct (ma_run_windowed interval gran tr) as (m & Hm & Hinv); [lia | lia |].
  exists m. split; [exact Hm |].
  unfold MovingAverage.Average. rewrite (ma_aggregate_inv _ _ _ Hinv). simpl.
  rewrite (wrap_id (sumZ _)) by done.
  rewrite (wrap_id (Z.of_nat _)) by int64_range.
  destruct (recent (Z.to_nat gran) tr) as [|v vs]; [done |].
  rewrite decide_False by (simpl; lia). rewrite decide_False by done.
  unfold int_quo. rewrite decide_False by (simpl; lia).
  rewrite wrap_id; [done |]. apply quot_in_range; [done | simpl; lia].
Qed.

(** Two buckets: the sample 100 is two ticks old and has left the window;
    the mean of 7 and -10 is truncated toward zero. *)
Lemma average_over_the_window_witness :
  0 < 1000 ∧ 2 ≤ 2 ≤ Int64.max_int ∧
  ∃ m,
    run MovingAverage.Add MovingAverage.rotate
      (MovingAverage.NewMovingAverageWithGranularity 1000 2).2
      (MovingAverage.NewMovingAverageWithGranularity 1000 2).1
      [EvAdd 100; EvTick; EvAdd 7; EvTick; EvAdd (-10)] = Ok m ∧
    MovingAverage.Average m = Ok (-1).
Proof.
  split; [done |]. split; [done |].
  destruct (average_over_the_window 1000 2
              [EvAdd 100; EvTick; EvAdd 7; EvTick; EvAdd (-10)])
    as (m & Hm & Havg);
    [done | done | vm_compute; split; congruence | vm_compute; congruence |].
  exists m. split; [exact Hm | exact Havg].
Defined.

(** ** The ticker *)

Lemma elapse_as_run {T} (add : T → Z → result T) (rotate : Z → T → result T)
    gran period d (r : T) :
  0 < period →
  elapse rotate d
    (start (r, Some {| rot_gran := gran; rot_period := period |})) =
  (r' ← run add rotate
         (Some {| rot_gran := gran; rot_period := period |}) r
         (replicate (Z.to_nat (d / period)) EvTick);
   Ok {| inst := r';
         task := Some {| rot_gran := gran; rot_period := period |};
         since_tick := d mod period |}).
Proof.
  intros Hp. unfold elapse, start. simpl. rewrite decide_False by lia.
  rewrite (iterate_run add). simpl. done.
Qed.

(** X6. A windowed counter or average ([interval > 0], [gran ≥ 2]) whose
    interval is shorter than [gran] nanoseconds has a ticker period
    [interval / gran] of zero: creating the ticker panics, whatever time
    passes.  With [interval ≥ gran] the ticker runs without a panic; on an
    instance nothing was added to, [Rate] and [Average] stay [0], and the
    time since the last tick is [d mod (interval / gran)]. *)
Theorem ticker_period_must_be_positive (interval gran d : Z) :
  0 < interval → 2 ≤ gran ≤ Int64.max_int → 0 ≤ d →
  (interval < gran →
   elapse RateCounter.rotate d
     (start (RateCounter.NewRateCounterWithGranularity interval gran))
   = Panic NonPositiveTickerInterval ∧
   elapse MovingAverage.rotate d
     (start (MovingAverage.NewMovingAverageWithGranularity interval gran))
   = Panic NonPositiveTickerInterval) ∧
  (gran ≤ interval →
   (∃ s,
      elapse RateCounter.rotate d
        (start (RateCounter.NewRateCounterWithGranularity interval gran))
      = Ok s ∧
      RateCounter.Rate (inst s) = Ok 0 ∧
      since_tick s = d mod (interval ÷ gran)) ∧
   (∃ s,
      elapse MovingAverage.rotate d
        (start (MovingAverage.NewMovingAverageWithGranularity interval gran))
      = Ok s ∧
      MovingAverage.Average (inst s) = Ok 0 ∧
      since_tick s = d mod (interval ÷ gran))).
Proof.
  intros Hi Hg Hd. split.
  - intros Hlt. rewrite rc_new_windowed, ma_new_windowed by lia.
    unfold elapse, start. simpl.
    rewrite Z.quot_small by lia. by rewrite decide_True.
  - intros Hge.
    assert (Hp : 0 < interval ÷ gran) by (apply Z.quot_str_pos; lia).
    set (n := Z.to_nat (d / (interval ÷ gran))).
    split.
    + destruct (rc_run_windowed interval gran (replicate n EvTick))
        as (r & Hr & Hinv); [lia | lia |].
      rewrite rc_new_windowed in * by lia. cbn [fst snd] in Hr.
      rewrite (elapse_as_run RateCounter.Add) by done. fold n. rewrite Hr.
      eexists. split; [done |]. split; [| done]. cbn [inst].
      by rewrite (rc_rate_inv _ _ _ Hinv), recent_replicate_tick.
    + destruct (ma_run_windowed interval gran (replicate n EvTick))
        as (m & Hm & Hinv); [lia | lia |].
      rewrite ma_new_windowed in * by lia. cbn [fst snd] in Hm.
      rewrite (elapse_as_run MovingAverage.Add) by done. fold n. rewrite Hm.
      eexists. split; [done |]. split; [| done]. cbn [inst].
      unfold MovingAverage.Average.
      by rewrite (ma_aggregate_inv _ _ _ Hinv), recent_replicate_tick.
Qed.

(** [NewRateCounterWithGranularity(10, 32)], ten nanoseconds in 32 buckets,
    against an interval of one minute. *)
Lemma ticker_period_must_be_positive_witness :
  0 < 10 ∧ 2 ≤ 32 ≤ Int64.max_int ∧ 0 ≤ 5 ∧ 10 < 32 ∧
  elapse RateCounter.rotate 5
    (start (RateCounter.NewRateCounterWithGranularity 10 32))
  = Panic NonPositiveTickerInterval ∧
  ∃ s,
    elapse RateCounter.rotate 5000000000
      (start (RateCounter.NewRateCounterWithGranularity 60000000000 32))
    = Ok s ∧
    RateCounter.Rate (inst s) = Ok 0 ∧
    since_tick s = 1250000000.
Proof.
  split; [done |]. split; [done |]. split; [done |]. split; [done |].
  destruct (ticker_period_must_be_positive 10 32 5) as [Hpanic _];
    [done | done | done |].
  destruct (ticker_period_must_be_positive 60000000000 32 5000000000)
    as [_ Hok]; [done | done | done |].
  split; [apply Hpanic; done |].
  destruct Hok as [(s & Hs & Hrate & Hsince) _]; [done |].
  exists s. split; [exact Hs |]. split; [exact Hrate | exact Hsince].
Defined.

(** X7. [NewRateCounter(interval)] and [NewMovingAverage(interval)] with an
    interval that is not positive are the cumulative [NewCounter()] and
    [NewAverage()].  With a positive interval they have [DefaultGranularity],
    32, buckets and a goroutine ticking every [interval / 32]; along every
    sequential run [Rate] is then the [int64] sum of the deltas that fewer
    than 32 ticks follow, and the average reads the sum and the number of
    those samples. *)
Theorem default_constructors_use_32_buckets
    (interval : Z) (tr : list event) :
  (interval ≤ 0 →
   RateCounter.NewRateCounter interval = RateCounter.NewCounter ∧
   MovingAverage.NewMovingAverage interval = MovingAverage.NewAverage) ∧
  (0 < interval →
   length (RateCounter.bins (RateCounter.NewRateCounter interval).1)
     = 32%nat ∧
   (RateCounter.NewRateCounter interval).2 =
     Some {| rot_gran := 32; rot_period := interval ÷ 32 |} ∧
   length (MovingAverage.sums (MovingAverage.NewMovingAverage interval).1)
     = 32%nat ∧
   length (MovingAverage.counts (MovingAverage.NewMovingAverage interval).1)
     = 32%nat ∧
   (MovingAverage.NewMovingAverage interval).2 =
     Some {| rot_gran := 32; rot_period := interval ÷ 32 |} ∧
   (∃ r,
      run RateCounter.Add RateCounter.rotate
        (RateCounter.NewRateCounter interval).2
        (RateCounter.NewRateCounter interval).1 tr = Ok r ∧
      RateCounter.Rate r = Ok (Int64.wrap (sumZ (recent 32 tr)))) ∧
   (∃ m,
      run MovingAverage.Add MovingAverage.rotate
        (MovingAverage.NewMovingAverage interval).2
        (MovingAverage.NewMovingAverage interval).1 tr = Ok m ∧
      MovingAverage.aggregate m =
      Ok (Int64.wrap (sumZ (recent 32 tr)),
          Int64.wrap (Z.of_nat (length (recent 32 tr)))))).
Proof.
  unfold RateCounter.NewRateCounter, MovingAverage.NewMovingAverage,
    RateCounter.NewCounter, MovingAverage.NewAverage, DefaultGranularity.
  split.
  - intros Hi. rewrite !rc_new_degenerate, !ma_new_degenerate by lia. done.
  - intros Hi.
    destruct (rc_run_windowed interval 32 tr) as (r & Hr & Hrinv);
      [lia | done |].
    destruct (ma_run_windowed interval 32 tr) as (m & Hm & Hminv);
      [lia | done |].
    rewrite rc_new_windowed, ma_new_windowed in * by lia.
    repeat (split; [done |]). split.
    + exists r. split; [exact Hr |]. exact (rc_rate_inv _ _ _ Hrinv).
    + exists m. split; [exact Hm |]. exact (ma_aggregate_inv _ _ _ Hminv).
Qed.

(** One minute: 33 deltas of 1, a tick after each; the first has left the
    window of 32. *)
Lemma default_constructors_use_32_buckets_witness :
  0 < 60000000000 ∧
  ∃ r,
    run RateCounter.Add RateCounter.rotate
      (RateCounter.NewRateCounter 60000000000).2
      (RateCounter.NewRateCounter 60000000000).1
      (mjoin (replicate 33 [EvAdd 1; EvTick])) = Ok r ∧
    RateCounter.Rate r = Ok 31.
Proof.
  split; [done |].
  destruct (default_constructors_use_32_buckets 60000000000
              (mjoin (replicate 33 [EvAdd 1; EvTick])))
    as [_ Hwin].
  destruct Hwin as (_ & _ & _ & _ & _ & (r & Hr & Hrate) & _); [done |].
  exists r. split; [exact Hr | exact Hrate].
Defined.

(** * The poller *)

(** ** Garbage-collection pauses *)

Lemma foldl_max_ge (l : list Z) mx :
  mx ≤ foldl Z.max mx l ∧ Forall (λ p, p ≤ foldl Z.max mx l) l.
Proof.
  revert mx. induction l as [|p l IH]; intros mx; simpl; [by split |].
  destruct (IH (Z.max mx p)) as [Hge Hall].
  split; [lia |]. constructor; [lia | done].
Qed.

Lemma foldl_max_elem (l : list Z) mx :
  foldl Z.max mx l = mx ∨ foldl Z.max mx l ∈ l.
Proof.
  revert mx. induction l as [|p l IH]; intros mx; simpl; [by left |].
  destruct (IH (Z.max mx p)) as [Heq | Hin].
  - rewrite Heq. destruct (Z.max_spec mx p) as [[_ ->] | [_ ->]].
    + right. by left.
    + by left.
  - right. by right.
Qed.

(** The truncated quotients of a list by [n]: between them they lose less
    than [n - 1] per entry. *)
Lemma sum_quot_bounds n (l : list Z) :
  0 < n → Forall (λ p, 0 ≤ p) l →
  0 ≤ sumZ ((λ p, p / n) <$> l) ∧
  n * sumZ ((λ p, p / n) <$> l) ≤ sumZ l ∧
  sumZ l ≤ n * sumZ ((λ p, p / n) <$> l) + (n - 1) * Z.of_nat (length l).
Proof.
  intros Hn. induction 1 as [|p l Hp _ IH].
  - unfold sumZ. simpl. lia.
  - rewrite fmap_cons, !sumZ_cons. cbn [length].
    pose proof (Z.div_mod p n ltac:(lia)).
    pose proof (Z.mod_pos_bound p n Hn).
    pose proof (Z.div_pos p n Hp Hn). nia.
Qed.

(** As many quotients by [n] as [n] at most, of entries that are at most
    [M], add up to [M] at most. *)
Lemma sum_quot_le n M (l : list Z) :
  0 < n → 0 ≤ M → Z.of_nat (length l) ≤ n → Forall (λ p, 0 ≤ p ≤ M) l →
  sumZ ((λ p, p / n) <$> l) ≤ M.
Proof.
  intros Hn HM Hlen Hall.
  assert (Hsum : sumZ ((λ p, p / n) <$> l) ≤ Z.of_nat (length l) * (M / n)).
  { clear Hlen. induction Hall as [|p l Hp _ IH].
    - unfold sumZ. simpl. lia.
    - rewrite fmap_cons, sumZ_cons. cbn [length].
      pose proof (Z.div_le_mono p M n Hn ltac:(lia)). lia. }
  pose proof (Z.mul_div_le M n Hn).
  pose proof (Z.div_pos M n HM Hn). nia.
Qed.

Section GcPauses.

Variable PauseNs : list Z.
Variable n : Z.
Hypothesis n_pos : 0 < n.
Hypothesis n_le : n ≤ Z.of_nat (length PauseNs).
Hypothesis n_small : n < Uint64.max_uint.
Hypothesis pauses_in_range : Forall Uint64.in_range PauseNs.

(** The pauses the loop has still to visit when it stands at index [i]. *)
Definition pauses_from (i : Z) : list Z :=
  drop (Z.to_nat i) (take (Z.to_nat n) PauseNs).

Lemma pauses_from_cons i :
  0 ≤ i < n →
  ∃ p, slice_get PauseNs i = Ok p ∧ Uint64.in_range p ∧
       pauses_from i = p :: pauses_from (i + 1).
Proof.
  intros Hi.
  destruct (lookup_lt_is_Some_2 PauseNs (Z.to_nat i)) as [p Hp]; [lia |].
  exists p. split; [apply slice_get_Ok; split; [lia | done] |].
  split; [by eapply (Forall_lookup_1 _ _ _ _ pauses_in_range) |].
  unfold pauses_from. replace (Z.to_nat (i + 1)) with (S (Z.to_nat i)) by lia.
  apply drop_S. rewrite lookup_take_lt by lia. done.
Qed.

Lemma pauses_from_end : pauses_from n = [].
Proof.
  unfold pauses_from. apply drop_ge. rewrite length_take. lia.
Qed.

Lemma pauses_from_in_range i : Forall Uint64.in_range (pauses_from i).
Proof.
  unfold pauses_from. apply Forall_drop, Forall_take. exact pauses_in_range.
Qed.

Lemma gc_pause_loop_spec fuel :
  ∀ i avg mx,
    0 ≤ i ≤ n → (Z.to_nat (n - i) < fuel)%nat → 0 ≤ avg →
    avg + sumZ ((λ p, p / n) <$> pauses_from i) ≤ Uint64.max_uint →
    gc_pause_loop fuel PauseNs n i avg mx =
    Ok (avg + sumZ ((λ p, p / n) <$> pauses_from i),
        foldl Z.max mx (pauses_from i)).
Proof.
  induction fuel as [|fuel IH]; intros i avg mx Hi Hfuel Havg Hbound; [lia |].
  cbn [gc_pause_loop]. case_decide as Hlt.
  - destruct (pauses_from_cons i) as (p & Hget & Hp & Hcons); [lia |].
    rewrite Hcons in *. rewrite fmap_cons, sumZ_cons in *. cbn [foldl].
    assert (Hquo : Uint64.quo p n = Ok (p / n)).
    { unfold Uint64.quo. by rewrite decide_False by lia. }
    rewrite Hget. cbn [mbind result_bind]. rewrite Hquo.
    cbn [mbind result_bind].
    assert (Hrest : 0 ≤ sumZ ((λ p, p / n) <$> pauses_from (i + 1))).
    { apply sum_quot_bounds; [done |].
      eapply Forall_impl; [apply pauses_from_in_range |].
      unfold Uint64.in_range. intros; simpl in *; lia. }
    unfold Uint64.in_range in Hp.
    pose proof (Z.div_pos p n ltac:(lia) n_pos) as Hq.
    unfold Uint64.add, Uint64.wrap, Uint64.max_uint in *.
    rewrite (Z.mod_small (avg + p / n)) by lia.
    rewrite (Z.mod_small (i + 1)) by lia.
    rewrite IH by lia.
    f_equal. f_equal; [lia |].
    f_equal. case_decide; lia.
  - assert (i = n) as -> by lia. rewrite pauses_from_end.
    unfold sumZ. simpl. by rewrite Z.add_0_r.
Qed.

End GcPauses.

(** X8. The garbage-collection statistics of [MemStats], for every
    [NumGC] (a [uint32]) and every [PauseNs] (256 entries of [uint64]).
    With [n] the lesser of [NumGC] and 256, the loop visits the first [n]
    entries.  It never indexes outside the array and never divides by zero
    (with [NumGC = 0] it records an average and a maximum of [0]).  The
    maximum recorded is the greatest of those entries.  The average recorded
    is the sum of their quotients by [n]; it never overflows, is at most the
    maximum, and [n] times it falls short of the true sum by at most
    [n * (n - 1)]. *)
Theorem gc_pause_stats_sound (NumGC : Z) (PauseNs : list Z) :
  0 ≤ NumGC < 2 ^ 32 →
  length PauseNs = 256%nat →
  Forall Uint64.in_range PauseNs →
  let n := Z.min NumGC 256 in
  let window := take (Z.to_nat n) PauseNs in
  ∃ avg max,
    gc_pause_stats NumGC PauseNs = Ok (avg, max) ∧
    avg = sumZ ((λ p, p / n) <$> window) ∧
    Forall (λ p, p ≤ max) window ∧
    (window = [] → avg = 0 ∧ max = 0) ∧
    (window ≠ [] → max ∈ window) ∧
    avg ≤ max ∧
    n * avg ≤ sumZ window ≤ n * avg + n * (n - 1).
Proof.
  intros HNumGC Hlen Hrange n window.
  assert (Hn : (if decide (NumGC > 256) then 256 else NumGC) = n).
  { unfold n. case_decide; lia. }
  unfold gc_pause_stats. rewrite Hn.
  destruct (decide (n = 0)) as [Hz | Hnz].
  - assert (Hw : window = []) by (unfold window; rewrite Hz; done).
    rewrite Hw, Hz. exists 0, 0. repeat split; try done.
    all: unfold sumZ; simpl; lia.
  - assert (Hnpos : 0 < n ≤ 256) by lia.
    assert (Hwlen : length window = Z.to_nat n).
    { unfold window. rewrite length_take. lia. }
    assert (Hwrange : Forall Uint64.in_range window).
    { unfold window. by apply Forall_take. }
    assert (Hfrom : pauses_from PauseNs n 0 = window).
    { unfold pauses_from. simpl. by rewrite drop_0. }
    assert (Hnonneg : 0 ≤ foldl Z.max 0 window)
      by apply foldl_max_ge.
    destruct (foldl_max_ge window 0) as [_ Hall].
    assert (Hle : sumZ ((λ p, p / n) <$> window) ≤ foldl Z.max 0 window).
    { apply sum_quot_le; [lia | done | lia |].
      rewrite Forall_forall in *. intros p Hp.
      specialize (Hall p Hp). specialize (Hwrange p Hp).
      unfold Uint64.in_range in Hwrange. lia. }
    assert (Hmaxr : foldl Z.max 0 window ≤ Uint64.max_uint).
    { destruct (foldl_max_elem window 0) as [-> | Hin].
      - unfold Uint64.max_uint. lia.
      - rewrite Forall_forall in Hwrange. specialize (Hwrange _ Hin).
        unfold Uint64.in_range in Hwrange. lia. }
    rewrite (gc_pause_loop_spec PauseNs n); rewrite ?Hfrom;
      [| lia | lia | unfold Uint64.max_uint; lia | done | lia | lia
       | done | lia].
    eexists _, _. split; [by rewrite Z.add_0_l |].
    split; [done |]. split; [done |].
    split; [intros Hw; rewrite Hw in Hwlen; simpl in Hwlen; lia |].
    split.
    { intros _. destruct (foldl_max_elem window 0) as [Heq | Hin]; [| done].
      destruct window as [|p w] eqn:Hw; [simpl in Hwlen; lia |].
      rewrite Heq. apply Forall_cons in Hall as [Hp _].
      apply Forall_cons in Hwrange as [Hp' _].
      unfold Uint64.in_range in Hp'. rewrite Heq in Hp.
      assert (p = 0) as -> by lia. by left. }
    split; [done |].
    destruct (sum_quot_bounds n window) as (_ & Hlo & Hhi); [lia | |].
    { eapply Forall_impl; [exact Hwrange |].
      unfold Uint64.in_range. intros; simpl in *; lia. }
    rewrite Hwlen in Hhi. split; [done |]. nia.
Qed.

(** Three collections, with pauses of 10, 20 and 31 nanoseconds. *)
Lemma gc_pause_stats_sound_witness :
  0 ≤ 3 < 2 ^ 32 ∧
  length ([10; 20; 31] ++ replicate 253 0) = 256%nat ∧
  gc_pause_stats 3 ([10; 20; 31] ++ replicate 253 0) = Ok (19, 31).
Proof.
  split; [done |]. split; [done |].
  destruct (gc_pause_stats_sound 3 ([10; 20; 31] ++ replicate 253 0))
    as (avg & max & Hstats & Havg & _); [done | done | |].
  { apply Forall_app. split.
    - repeat constructor; vm_compute; congruence.
    - apply Forall_replicate. vm_compute. split; congruence. }
  rewrite Hstats. vm_compute in Hstats. symmetry. exact Hstats.
Defined.

(** * The instrumented HTTP handler *)

(** ** Keys *)









(** ** Maps of variables *)






(** ** Tallies *)

Lemma tally_nil P f : tally P f [] = None.
Proof. done. Qed.



(** ** The keys a request touches *)

Section Keys.

Local Open Scope string_scope.







Lemma key_requests_per_ne k x : "requests_per_" ++ k ≠ "responses." ++ x.
Proof. intros H. cbv [append] in H. congruence. Qed.

Lemma key_responses_per_ne k x : "responses_per_" ++ k ≠ "responses." ++ x.
Proof. intros H. cbv [append] in H. congruence. Qed.

End Keys.





(** ** The counters of a handler *)






(** ** Serving requests *)










(** X10. The status code that [MakeExpHandlerFunc] reports for a wrapped
    [http.HandlerFunc] is the code of its last call of [WriteHeader], and
    [500] when it never calls [WriteHeader]; every call is passed on to the
    wrapped writer, unchanged and in order. *)
Theorem MakeExpHandlerFunc_reports_last_code (h w : list Z) :
  MakeExpHandlerFunc h w = (default 500 (last h), w ++ h).
Proof.
  unfold MakeExpHandlerFunc.
  assert (H : ∀ c0,
    foldl WriteHeader {| ResponseWriter := w; code := c0 |} h =
    {| ResponseWriter := w ++ h; code := default c0 (last h) |}).
  { induction h as [|c h IH] using rev_ind; intros c0.
    - simpl. by rewrite app_nil_r.
    - rewrite foldl_app, IH. simpl. unfold WriteHeader. simpl.
      by rewrite last_snoc, app_assoc. }
  by rewrite H.
Qed.

(** ** The registry of handlers *)

Lemma NewExpHandler_fresh g name :
  registry_ok g → name ∉ published g →
  ∃ e g',
    NewExpHandler g name = Some (e, g') ∧
    ExpHandler.Name e = name ∧ ExpHandler.Stats e = ∅ ∧
    ExpHandler.Durations e = [("min"%string, Minute)] ∧
    ExpHandler.didInit e = false ∧
    registry_ok g' ∧
    published g' = {[name]} ∪ published g ∧
    (∀ k, expHandlers g' !! k =
          if decide (k = name) then Some (VarInt 1) else expHandlers g !! k).
Proof.
  intros Hok Hfresh. unfold NewExpHandler. rewrite decide_False by done.
  assert (Hnone : expHandlers g !! name = None).
  { destruct (expHandlers g !! name) as [v|] eqn:E; [| done].
    by destruct (Hok _ _ E). }
  assert (Hadd : Map_Add (expHandlers g) name 1 =
                 <[name := VarInt 1]> (expHandlers g)).
  { unfold Map_Add. by rewrite Hnone. }
  eexists _, _. split; [done |].
  cbn [ExpHandler.Name ExpHandler.Stats ExpHandler.Durations
         ExpHandler.didInit published expHandlers].
  repeat (split; [done |]). rewrite Hadd. split; [| split; [done |]].
  - unfold registry_ok. cbn [published expHandlers].
    intros k v Hk. destruct (decide (k = name)) as [-> | Hne].
    + rewrite lookup_insert_eq in Hk. injection Hk as <-.
      split; [apply elem_of_union; left; by apply elem_of_singleton | done].
    + rewrite lookup_insert_ne in Hk by done.
      destruct (Hok _ _ Hk). split; [apply elem_of_union; by right | done].
  - intros k. case_decide as Hk.
    + subst. by rewrite lookup_insert_eq.
    + by rewrite lookup_insert_ne.
Qed.

(** X11. [NewExpHandler] needs a name of its own.  Starting from a registry
    in which the registered handlers are published, creating handlers for a
    list of names one after the other succeeds exactly when the names are
    distinct and none is published already (as ["cmdline"], ["memstats"] and
    ["exphttp"] are from the start); otherwise [expvar.NewMap] panics.  When
    it succeeds, the names are published, ["exphttp"] maps each of them to
    [1] and is otherwise unchanged, and each handler is new: no statistics
    yet, [Durations = {"min": time.Minute}], not initialised. *)
Theorem new_handlers_need_fresh_names (g : Registry) (names : list string) :
  registry_ok g →
  (is_Some (new_handlers g names) ↔
   NoDup names ∧ Forall (λ n, n ∉ published g) names) ∧
  (∀ es g',
     new_handlers g names = Some (es, g') →
     registry_ok g' ∧
     published g' = list_to_set names ∪ published g ∧
     (∀ k, expHandlers g' !! k =
           if decide (k ∈ names) then Some (VarInt 1)
           else expHandlers g !! k) ∧
     ExpHandler.Name <$> es = names ∧
     Forall (λ e, ExpHandler.Stats e = ∅ ∧
                  ExpHandler.Durations e = [("min"%string, Minute)] ∧
                  ExpHandler.didInit e = false) es).
Proof.
  revert g. induction names as [|name names IH]; intros g Hok.
  - split.
    + split; [intros _; split; constructor | intros _; by eexists].
    + intros es g' [= <- <-]. split; [done |].
      split; [by rewrite list_to_set_nil, (left_id_L ∅ (∪)) |].
      split; [| by split].
      intros k. rewrite decide_False; [done | apply not_elem_of_nil].
  - cbn [new_handlers].
    destruct (decide (name ∈ published g)) as [Hin | Hfresh].
    + unfold NewExpHandler. rewrite decide_True by done. split.
      * split; [by intros [? ?] |].
        intros [_ Hall]. apply Forall_cons in Hall as [Hn _]. done.
      * by intros es g' ?.
    + destruct (NewExpHandler_fresh g name Hok Hfresh)
        as (e & g1 & Hnew & Hname & Hstats & Hdurs & Hinit & Hok1 & Hpub & Hexp).
      rewrite Hnew. destruct (IH g1 Hok1) as [Hiff Hres]. split.
      * split.
        -- intros Hsome.
           destruct (new_handlers g1 names) as [[es g2]|] eqn:E;
             [| by destruct Hsome].
           destruct (proj1 Hiff ltac:(by eexists)) as [Hnd Hall].
           rewrite Hpub in Hall. split.
           ++ constructor; [| done]. intros Hin.
              rewrite Forall_forall in Hall.
              specialize (Hall _ Hin). apply Hall, elem_of_union. left.
              by apply elem_of_singleton.
           ++ constructor; [done |].
              eapply Forall_impl; [exact Hall |].
              intros n Hn Hin. apply Hn, elem_of_union. by right.
        -- intros [Hnd Hall].
           apply NoDup_cons in Hnd as [Hnotin Hnd].
           apply Forall_cons in Hall as [_ Hall].
           destruct (proj2 Hiff) as [[es g2] E].
           { split; [done |]. rewrite Hpub.
             rewrite Forall_forall in *. intros n Hn.
             specialize (Hall n Hn). intros Hin.
             apply elem_of_union in Hin as [Hin | Hin]; [| done].
             apply elem_of_singleton in Hin as ->. done. }
           rewrite E. by eexists.
      * intros es g'.
        destruct (new_handlers g1 names) as [[es1 g2]|] eqn:E; [| done].
        intros [= <- <-].
        destruct (Hres es1 g2 eq_refl) as (Hok2 & Hpub2 & Hexp2 & Hnames & Hnew2).
        split; [done |].
        split; [rewrite Hpub2, Hpub, list_to_set_cons;
                by rewrite (assoc_L (∪)), (comm_L (∪) _ {[name]}) |].
        split; [| split].
        -- intros k. rewrite Hexp2, Hexp.
           destruct (decide (k = name)) as [-> | Hne].
           ++ rewrite (decide_True (P := name ∈ name :: names))
                by (by left).
              by case_decide.
           ++ destruct (decide (k ∈ names)) as [Hin | Hnin].
              ** rewrite decide_True; [done | by right].
              ** rewrite decide_False; [done |].
                 intros Hin. apply elem_of_cons in Hin as [? | ?]; done.
        -- rewrite fmap_cons. by rewrite Hname, Hnames.
        -- constructor; [done | done].
Qed.

(** From the start: two handlers are created; a third of the same name as
    the first would make [expvar.NewMap] panic, and so does the name
    ["memstats"]. *)
Lemma new_handlers_need_fresh_names_witness :
  registry_ok initial_registry ∧
  is_Some (new_handlers initial_registry ["api"; "admin"]%string) ∧
  new_handlers initial_registry ["api"; "admin"; "api"]%string = None ∧
  new_handlers initial_registry ["memstats"]%string = None.
Proof.
  assert (Hok : registry_ok initial_registry) by (intros k v H; done).
  split; [exact Hok |].
  destruct (new_handlers_need_fresh_names initial_registry
              ["api"; "admin"]%string Hok) as [Hiff _].
  split; [| split; reflexivity].
  apply Hiff. split.
  - repeat constructor; rewrite ?not_elem_of_cons;
      repeat split; try apply not_elem_of_nil; congruence.
  - repeat constructor; vm_compute; intros H; discriminate H.
Defined.

(** * The instrumented RPC server *)








(** ** The keys of [rpcStats] *)



Section RpcKeys.

Local Open Scope string_scope.






End RpcKeys.

(** ** What the two recording functions do *)





(** ** The books of the server *)











Lemma closes_closed c errs :
  closed c = true → closes c errs = (c, replicate (length errs) None).
Proof.
  intros Hc. induction errs as [|err errs IH]; [done |].
  cbn [closes]. unfold Close. rewrite Hc. by rewrite IH.
Qed.

(** X14. [Close] closes the connection once.  However often [Close] is
    called on a codec that is not closed, and whatever closing the
    connection would return each time: the connection is closed exactly
    once, by the first call, which returns what closing it returned; every
    later call leaves the connection alone and returns the nil error. *)
Theorem Close_closes_the_connection_once
    (c : gobServerCodec) (err : option string) (errs : list (option string)) :
  closed c = false →
  closes c (err :: errs) =
  ({| closed := true; rwc_closed := S (rwc_closed c) |},
   err :: replicate (length errs) None).
Proof.
  intros Hc. cbn [closes]. unfold Close at 1. rewrite Hc.
  by rewrite closes_closed.
Qed.

Lemma Close_closes_the_connection_once_witness :
  closes {| closed := false; rwc_closed := 0 |}
    [Some "broken pipe"; Some "already closed"; None]%string =
  ({| closed := true; rwc_closed := 1 |},
   [Some "broken pipe"; None; None]%string).
Proof.
  apply (Close_closes_the_connection_once
           {| closed := false; rwc_closed := 0 |}
           (Some "broken pipe"%string)
           [Some "already closed"%string; None]).
  reflexivity.
Defined.
